(** * task3.js: fair dice game — shallow embedding and verified properties

    The program is a single Node.js file with five classes:
    [DiceConfigParser], [RandomGenerator], [FairNumberProtocol], [Dice]
    and [GameFlow], and the function [main].  This development embeds
    all of them and states what they guarantee.

    Modelling conventions
    - A JavaScript number is a [jsnum]: an integer, one of the two
      infinities, or [NaN].  Arithmetic on the integers is exact, i.e. the
      model covers the part of the double range where integers are exact;
      [Math.ceil(Math.log2(range) / 8)] is taken with the real logarithm.
    - [crypto.randomBytes] reads from an explicit entropy tape with a
      cursor; every [RandomGenerator] operation is a computation in the
      monad [M] that threads the tape and may throw.
    - The [do ... while] loop of [generateSecureRandomNumber] is driven by
      fuel; running out of fuel is the outcome [Spin], distinct from both a
      returned value and a thrown exception.
    - The Node primitives that the file only calls (the HMAC, [Number]) are
      fields of the classes [NodeCrypto] and [JsConversions]; those the
      game needs on top ([parseInt], printing and comparing faces) are
      fields of [JsRuntime].
    - The game runs in a [World]: the entropy source, the lines the user
      will type, and the terminal as the list of what was printed and
      asked. *)

From Stdlib Require Import ZArith Lia.
From Stdlib.Strings Require Import String Ascii Byte.
From Stdlib Require Import DecimalString.
From stdpp Require Import base list.

Local Open Scope Z_scope.

(** ** JavaScript values *)

Inductive jsnum : Type :=
| Num (z : Z)
| PosInfinity
| NegInfinity
| NaN.

Inductive JsError : Type :=
| RangeError (code : string)      (* Node's RangeError, e.g. ERR_OUT_OF_RANGE *)
| Error (message : string).       (* [new Error(message)] *)

(** [a + b] on numbers.  The sum of two integers is the exact one: this is
    the sum of the doubles as long as it lies within [2^53] of zero, which
    the theorems about sums assume. *)
Definition js_add (a b : jsnum) : jsnum :=
  match a, b with
  | NaN, _ | _, NaN => NaN
  | PosInfinity, NegInfinity | NegInfinity, PosInfinity => NaN
  | PosInfinity, _ | _, PosInfinity => PosInfinity
  | NegInfinity, _ | _, NegInfinity => NegInfinity
  | Num x, Num y => Num (x + y)
  end.

(** [a % b]: the remainder takes the sign of the dividend. *)
Definition js_rem (a b : jsnum) : jsnum :=
  match a, b with
  | Num x, Num y => if y =? 0 then NaN else Num (Z.rem x y)
  | Num x, (PosInfinity | NegInfinity) => Num x
  | _, _ => NaN
  end.

(** [a >= b]: every comparison with [NaN] is false. *)
Definition js_ge (a b : jsnum) : bool :=
  match a, b with
  | NaN, _ | _, NaN => false
  | PosInfinity, _ => true
  | _, NegInfinity => true
  | NegInfinity, _ => false
  | _, PosInfinity => false
  | Num x, Num y => y <=? x
  end.

(** [Number.prototype.toString()]. *)
Definition js_toString (a : jsnum) : string :=
  match a with
  | Num z => NilZero.string_of_int (Z.to_int z)
  | PosInfinity => "Infinity"
  | NegInfinity => "-Infinity"
  | NaN => "NaN"
  end.

(** ** Buffers, hex strings and [parseInt(_, 16)] *)

(** The character of a hex digit: [0-9] sit at code 48 and up, [a-f] at
    code 97 and up. *)
Definition hexDigit (d : N) : ascii :=
  if (d <? 10)%N then ascii_of_N (48 + d) else ascii_of_N (87 + d).

(** [buf.toString("hex")]: two lowercase digits per byte. *)
Fixpoint toHex (buf : list byte) : string :=
  match buf with
  | [] => EmptyString
  | b :: rest =>
      String (hexDigit (Byte.to_N b / 16))
        (String (hexDigit (Byte.to_N b mod 16)) (toHex rest))
  end.

(** The value of a character as a digit of radix 16, upper or lower
    case; [None] for every other character. *)
Definition hexVal (c : ascii) : option Z :=
  let code := Z.of_N (N_of_ascii c) in
  if (48 <=? code) && (code <=? 57) then Some (code - 48)
  else if (97 <=? code) && (code <=? 102) then Some (code - 87)
  else if (65 <=? code) && (code <=? 70) then Some (code - 55)
  else None.

(** The digit loop of [parseInt]: consume the longest prefix of hex digits;
    [seen] records whether at least one digit was read. *)
Fixpoint parseHexDigits (s : string) (acc : Z) (seen : bool) : jsnum :=
  match s with
  | EmptyString => if seen then Num acc else NaN
  | String c rest =>
      match hexVal c with
      | Some d => parseHexDigits rest (acc * 16 + d) true
      | None => if seen then Num acc else NaN
      end
  end.

(** [parseInt(s, 16)] on the strings the program feeds it, the output of
    [toHex]: no leading white space, sign or [0x] prefix to strip.  The
    empty string has no digits and parses to [NaN].  The value is the
    exact integer: it is the double [parseInt] returns for values up to
    [2^53]; a larger value is rounded by [parseInt] and stays at least
    [2^53], so it compares with a range of at most [2^53] as the exact
    value does. *)
Definition parseInt16 (s : string) : jsnum := parseHexDigits s 0 false.

(** The unsigned big-endian integer held by a buffer. *)
Definition beStep (acc : Z) (b : byte) : Z := acc * 256 + Z.of_N (Byte.to_N b).

Definition beValue (buf : list byte) : Z := fold_left beStep buf 0.

(** ** The entropy source and the computation monad *)

Record Entropy : Type := mkEntropy {
  tape : nat -> byte;     (* the bytes the operating system will supply *)
  consumed : nat          (* how many have been handed out *)
}.

Inductive outcome (A : Type) : Type :=
| Ret (a : A) (e : Entropy)          (* normal completion *)
| Throw (err : JsError) (e : Entropy) (* exception, with the tape as it was *)
| Spin.                               (* the loop outlived its fuel *)
Arguments Ret {A} a e.
Arguments Throw {A} err e.
Arguments Spin {A}.

Definition M (A : Type) : Type := Entropy -> outcome A.

Definition ret {A} (a : A) : M A := fun e => Ret a e.

Definition bind {A B} (m : M A) (k : A -> M B) : M B :=
  fun e =>
    match m e with
    | Ret a e' => k a e'
    | Throw err e' => Throw err e'
    | Spin => Spin
    end.

Declare Scope js_scope.
Delimit Scope js_scope with js.
Notation "x <- m ;; k" := (bind m (fun x => k))
  (at level 100, m at next level, right associativity) : js_scope.
Local Open Scope js_scope.

Definition kMaxLength : Z := 2147483647.

(** [crypto.randomBytes(size)].  Node validates [size] first: [NaN], a
    negative number (so also [-Infinity]) or a number above [2^31 - 1] is
    rejected with [RangeError [ERR_OUT_OF_RANGE]] and no byte is drawn. *)
Definition randomBytes (size : jsnum) : M (list byte) :=
  fun e =>
    match size with
    | Num n =>
        if (0 <=? n) && (n <=? kMaxLength) then
          Ret (map (tape e) (seq (consumed e) (Z.to_nat n)))
              (mkEntropy (tape e) (consumed e + Z.to_nat n))
        else Throw (RangeError "ERR_OUT_OF_RANGE") e
    | _ => Throw (RangeError "ERR_OUT_OF_RANGE") e
    end.

(** Results of the code that draws no entropy: a value or a thrown error. *)
Inductive result (A : Type) : Type :=
| Ok (a : A)
| Raise (err : JsError).
Arguments Ok {A} a.
Arguments Raise {A} err.

Definition rbind {A B} (r : result A) (k : A -> result B) : result B :=
  match r with
  | Ok a => k a
  | Raise err => Raise err
  end.

(** [xs.map(f)] with a callback that may throw: elements are visited in
    order and the first exception aborts the whole call. *)
Fixpoint mapR {A B} (f : A -> result B) (xs : list A) : result (list B) :=
  match xs with
  | [] => Ok []
  | x :: rest =>
      rbind (f x) (fun y => rbind (mapR f rest) (fun ys => Ok (y :: ys)))
  end.

(** ** Primitives supplied by Node *)

(** [crypto.createHmac("sha3-256", key).update(message).digest()]: a
    function of the key and the message. *)
Class NodeCrypto : Type := {
  hmacSha3_256 : string -> string -> list byte
}.

(** The global [Number(s)] conversion and [isNaN], over whatever numbers a
    die face may be. *)
Class JsConversions (Face : Type) : Type := {
  Number : string -> Face;
  isNaN : Face -> bool
}.

(** ** class RandomGenerator *)

(** [Math.ceil(Math.log2(range) / 8)] for [range >= 1], with [log2] the
    real logarithm: [Z.log2_up] is its ceiling, and rounding up before the
    division by 8 does not change the rounded quotient.  The double
    computation agrees with it for ranges up to [2^53], the bound the
    theorems about the byte width carry. *)
Definition byteWidth (range : Z) : Z := (Z.log2_up range + 7) / 8.

(** The same expression over all integers: [Math.log2(0)] is [-Infinity]
    and stays so through [/ 8] and [Math.ceil]; [Math.log2] of a negative
    number is [NaN]. *)
Definition byteSizeOf (range : Z) : jsnum :=
  if range <? 0 then NaN
  else if range =? 0 then NegInfinity
  else Num (byteWidth range).

Definition generateSecureRandomKey : M string :=
  buf <- randomBytes (Num 32) ;;
  ret (toHex buf).

(** The [do { num = ... } while (num >= range)] loop. *)
Fixpoint sampleLoop (fuel : nat) (byteSize : jsnum) (range : Z) : M jsnum :=
  match fuel with
  | O => fun _ => Spin
  | S fuel' =>
      buf <- randomBytes byteSize ;;
      let num := parseInt16 (toHex buf) in
      if js_ge num (Num range) then sampleLoop fuel' byteSize range
      else ret num
  end.

Definition generateSecureRandomNumber (fuel : nat) (range : Z) : M jsnum :=
  let byteSize := byteSizeOf range in
  sampleLoop fuel byteSize range.

(** The number of distinct candidates a draw of [byteWidth range] bytes can
    produce, and the candidate that iteration [k] (counting from 0) of the
    loop reads off the tape when each draw takes [w] bytes. *)
Definition candidateSpace (range : Z) : Z := 2 ^ (8 * byteWidth range).

Definition candidate (w : nat) (e : Entropy) (k : nat) : Z :=
  beValue (map (tape e) (seq (consumed e + k * w) w)).

Definition generateHMAC `{NodeCrypto} (key : string) (message : jsnum)
  : M string :=
  ret (toHex (hmacSha3_256 key (js_toString message))).

(** ** class FairNumberProtocol *)

Record FairNumberProtocol : Type := mkProtocol {
  range : Z;
  secretKey : string;
  computerNumber : jsnum;
  hmac : string
}.

Definition FairNumberProtocol_new `{NodeCrypto} (fuel : nat) (range : Z)
  : M FairNumberProtocol :=
  secretKey <- generateSecureRandomKey ;;
  computerNumber <- generateSecureRandomNumber fuel range ;;
  hmac <- generateHMAC secretKey computerNumber ;;
  ret (mkProtocol range secretKey computerNumber hmac).

(** Methods receive [this] and hand it back next to their value, so that
    what they do to the object is part of their result. *)
Definition getHMAC (this : FairNumberProtocol)
  : result (string * FairNumberProtocol) :=
  Ok (hmac this, this).

Definition revealKey (this : FairNumberProtocol)
  : result (string * FairNumberProtocol) :=
  Ok (secretKey this, this).

Definition getComputerNumber (this : FairNumberProtocol)
  : result (jsnum * FairNumberProtocol) :=
  Ok (computerNumber this, this).

Definition calculateResult (userNumber : jsnum) (this : FairNumberProtocol)
  : result (jsnum * FairNumberProtocol) :=
  Ok (js_rem (js_add (computerNumber this) userNumber) (Num (range this)),
      this).

(** A client's request to a protocol object, and what it gets back. *)
Inductive method : Type :=
| CallGetHMAC
| CallRevealKey
| CallGetComputerNumber
| CallCalculateResult (userNumber : jsnum).

Inductive jsval : Type :=
| VStr (s : string)
| VNum (n : jsnum).

Definition invoke (c : method) (this : FairNumberProtocol)
  : result (jsval * FairNumberProtocol) :=
  match c with
  | CallGetHMAC =>
      rbind (getHMAC this) (fun '(v, this') => Ok (VStr v, this'))
  | CallRevealKey =>
      rbind (revealKey this) (fun '(v, this') => Ok (VStr v, this'))
  | CallGetComputerNumber =>
      rbind (getComputerNumber this) (fun '(v, this') => Ok (VNum v, this'))
  | CallCalculateResult u =>
      rbind (calculateResult u this) (fun '(v, this') => Ok (VNum v, this'))
  end.

(** A sequence of requests on one object, stopping at the first throw. *)
Fixpoint run_calls (cs : list method) (this : FairNumberProtocol)
  : result (list jsval * FairNumberProtocol) :=
  match cs with
  | [] => Ok ([], this)
  | c :: rest =>
      rbind (invoke c this) (fun '(v, this') =>
      rbind (run_calls rest this') (fun '(vs, this'') =>
      Ok (v :: vs, this'')))
  end.

(** The order the specification prescribes, in its own words: a run goes
    Init, then Committed (the commitment is shown), then Revealed (key and
    committed value are shown, the result is computed), and never back. *)
Inductive Phase : Type := Init | Committed | Revealed.

Definition spec_phase_of (c : method) : Phase :=
  match c with
  | CallGetHMAC => Committed
  | _ => Revealed
  end.

Definition spec_allows (now : Phase) (c : method) : bool :=
  match now, spec_phase_of c with
  | Init, _ => false
  | Committed, _ => true
  | Revealed, Revealed => true
  | Revealed, _ => false
  end.

(** Whether a sequence of requests, starting in phase [now], follows the
    prescribed order. *)
Fixpoint spec_in_order (now : Phase) (cs : list method) : bool :=
  match cs with
  | [] => true
  | c :: rest => spec_allows now c && spec_in_order (spec_phase_of c) rest
  end.

(** ** class Dice *)

Record Dice (A : Type) : Type := mkDice { values : list A }.
Arguments mkDice {A} values.
Arguments values {A} _.

Definition Dice_new {A} (values : list A) : result (Dice A) :=
  Ok (mkDice values).

(** [arr[i]]: [None] is [undefined], the value of every index that is not
    a position of the array, [NaN] included. *)
Definition js_index {A} (arr : list A) (i : jsnum) : option A :=
  match i with
  | Num z => if z <? 0 then None else arr !! Z.to_nat z
  | _ => None
  end.

Definition roll {A} (fuel : nat) (this : Dice A) : M (option A) :=
  randomIndex <-
    generateSecureRandomNumber fuel (Z.of_nat (length (values this))) ;;
  ret (js_index (values this) randomIndex).

(** ** class DiceConfigParser *)

(** [s.split(",")]; the empty string yields one empty piece. *)
Fixpoint split_comma (s : string) : list string :=
  match s with
  | EmptyString => [EmptyString]
  | String c rest =>
      if Ascii.eqb c ","%char then EmptyString :: split_comma rest
      else match split_comma rest with
           | piece :: pieces => String c piece :: pieces
           | [] => [String c EmptyString]
           end
  end.

Definition dquote : string := String (ascii_of_nat 34) EmptyString.

Definition parseDie {Face} `{JsConversions Face} (arg : string)
  : result (list Face) :=
  let dice := map Number (split_comma arg) in
  if negb (length dice =? 6)%nat || existsb isNaN dice then
    Raise (Error ("Invalid dice format: " ++ dquote ++ arg ++ dquote ++
                  ". Each dice should contain exactly 6 integers."))
  else Ok dice.

Definition parseDiceConfig {Face} `{JsConversions Face} (args : list string)
  : result (list (list Face)) :=
  if (length args <? 3)%nat then
    Raise (Error
      "Invalid number of dice. Provide at least 3 sets of 6 integers.")
  else mapR parseDie args.

(** ** class GameFlow: the constructor *)

Record GameFlow (A : Type) : Type := mkGameFlow { diceSet : list (Dice A) }.
Arguments mkGameFlow {A} diceSet.
Arguments diceSet {A} _.

Definition GameFlow_new {A} (diceConfigurations : list (list A))
  : result (GameFlow A) :=
  rbind (mapR Dice_new diceConfigurations) (fun ds => Ok (mkGameFlow ds)).

(** [main] up to the point where the game object exists. *)
Definition main_setup {Face} `{JsConversions Face} (args : list string)
  : result (GameFlow Face) :=
  rbind (parseDiceConfig args) GameFlow_new.

(** ** class GameFlow: the game *)

(** What the game needs from the JavaScript runtime besides the above:
    [parseInt(s)] without a radix, the text of a face in a template
    literal or in [join], the comparisons [a > b] and [a < b] on faces, and
    the messages Node gives the two errors the program does not create
    itself. *)
Class JsRuntime (Face : Type) : Type := {
  parseInt : string -> jsnum;
  faceToString : Face -> string;
  face_gt : Face -> Face -> bool;
  face_lt : Face -> Face -> bool;
  rangeErrorMessage : string -> string;  (* by error code *)
  undefinedCallMessage : string          (* calling a method of undefined *)
}.

(** [a === b] on numbers: [NaN] equals nothing, itself included. *)
Definition js_strict_eq (a b : jsnum) : bool :=
  match a, b with
  | Num x, Num y => x =? y
  | PosInfinity, PosInfinity => true
  | NegInfinity, NegInfinity => true
  | _, _ => false
  end.

(** The terminal: what was printed and asked, oldest first. *)
Inductive Event : Type :=
| ConsoleLog (line : string)
| ConsoleError (line : string)
| Question (prompt : string).

(** The world a game runs in: the entropy source, the lines the user will
    type (one per question) and how many were read, and the terminal. *)
Record World : Type := mkWorld {
  entropy : Entropy;
  answers : nat -> string;
  asked : nat;
  transcript : list Event
}.

Inductive GameError : Type :=
| Thrown (err : JsError)         (* an error of the classes above *)
| TypeError (message : string).  (* raised by the runtime *)

Inductive run (A : Type) : Type :=
| Done (a : A) (w : World)
| Failed (err : GameError) (w : World)
| Hung.
Arguments Done {A} a w.
Arguments Failed {A} err w.
Arguments Hung {A}.

Definition G (A : Type) : Type := World -> run A.

Definition gret {A} (a : A) : G A := fun w => Done a w.

Definition gthrow {A} (err : GameError) : G A := fun w => Failed err w.

Definition gbind {A B} (m : G A) (k : A -> G B) : G B :=
  fun w =>
    match m w with
    | Done a w' => k a w'
    | Failed err w' => Failed err w'
    | Hung => Hung
    end.

Notation "x <~ m ;; k" := (gbind m (fun x => k))
  (at level 100, m at next level, right associativity) : js_scope.
Notation "m ;;; k" := (gbind m (fun _ => k))
  (at level 100, right associativity) : js_scope.

(** A computation on the entropy source, run inside the world. *)
Definition liftM {A} (m : M A) : G A :=
  fun w =>
    match m (entropy w) with
    | Ret a e => Done a (mkWorld e (answers w) (asked w) (transcript w))
    | Throw err e =>
        Failed (Thrown err) (mkWorld e (answers w) (asked w) (transcript w))
    | Spin => Hung
    end.

Definition liftR {A} (r : result A) : G A :=
  match r with
  | Ok a => gret a
  | Raise err => gthrow (Thrown err)
  end.

Definition emit (ev : Event) : G unit :=
  fun w =>
    Done tt (mkWorld (entropy w) (answers w) (asked w) (transcript w ++ [ev])).

Definition console_log (line : string) : G unit := emit (ConsoleLog line).

Definition console_error (line : string) : G unit := emit (ConsoleError line).

(** [getUserInput(promptText)]: [readlineSync.question] shows the prompt
    and returns the line the user types. *)
Definition getUserInput (promptText : string) : G string :=
  fun w =>
    Done (answers w (asked w))
         (mkWorld (entropy w) (answers w) (S (asked w))
                  (transcript w ++ [Question promptText])).

(** [arr.join(sep)]. *)
Definition join (sep : string) (pieces : list string) : string :=
  String.concat sep pieces.

(** [arr.forEach((x, index) => ...)], from position [index] on. *)
Fixpoint forEachFrom {A} (f : A -> nat -> G unit) (xs : list A) (index : nat)
  : G unit :=
  match xs with
  | [] => gret tt
  | x :: rest => f x index ;;; forEachFrom f rest (S index)
  end.

(** [`${roll}`] and the comparisons of two rolls; a roll may be
    [undefined], which prints as such and compares false either way. *)
Definition rollToString {Face} `{JsRuntime Face} (r : option Face) : string :=
  match r with
  | Some face => faceToString face
  | None => "undefined"
  end.

Definition roll_gt {Face} `{JsRuntime Face} (a b : option Face) : bool :=
  match a, b with
  | Some x, Some y => face_gt x y
  | _, _ => false
  end.

Definition roll_lt {Face} `{JsRuntime Face} (a b : option Face) : bool :=
  match a, b with
  | Some x, Some y => face_lt x y
  | _, _ => false
  end.

(** [dice.roll()] where [dice] came out of an array access and may be
    [undefined]. *)
Definition rollOf {Face} `{JsRuntime Face} (fuel : nat)
    (dice : option (Dice Face)) : G (option Face) :=
  match dice with
  | Some d => liftM (roll fuel d)
  | None => gthrow (TypeError undefinedCallMessage)
  end.

Definition selectUserDice {Face} `{JsRuntime Face} (this : GameFlow Face)
  : G (option (Dice Face)) :=
  console_log "Choose your dice:" ;;;
  forEachFrom
    (fun dice index =>
       console_log (js_toString (Num (Z.of_nat index)) ++ " - [" ++
                    join ", " (map faceToString (values dice)) ++ "]"))
    (diceSet this) 0 ;;;
  answer <~ getUserInput "Your selection: " ;;
  let choice := parseInt answer in
  gret (js_index (diceSet this) choice).

Definition playRounds {Face} `{JsRuntime Face} (fuel : nat)
    (this : GameFlow Face) : G unit :=
  userDice <~ selectUserDice this ;;
  let computerDice := js_index (diceSet this) (Num 1) in
  userRoll <~ rollOf fuel userDice ;;
  computerRoll <~ rollOf fuel computerDice ;;
  console_log ("Your throw is " ++ rollToString userRoll ++ ".") ;;;
  console_log ("My throw is " ++ rollToString computerRoll ++ ".") ;;;
  if roll_gt userRoll computerRoll then console_log "You win!"
  else if roll_lt userRoll computerRoll then console_log "I win!"
  else console_log "It's a draw!".

Definition startGame {Face} `{NodeCrypto} `{JsRuntime Face} (fuel : nat)
    (this : GameFlow Face) : G unit :=
  console_log "Let's determine who makes the first move." ;;;
  protocol <~ liftM (FairNumberProtocol_new fuel 2) ;;
  shown <~ liftR (getHMAC protocol) ;;
  let '(commitment, protocol) := shown in
  console_log ("I selected a random value in the range 0..1 (HMAC=" ++
               commitment ++ ").") ;;;
  userGuess <~ getUserInput "Try to guess my selection (0 or 1): " ;;
  got <~ liftR (getComputerNumber protocol) ;;
  let '(computerNumber, protocol) := got in
  revealed <~ liftR (revealKey protocol) ;;
  let '(key, protocol) := revealed in
  console_log ("My selection: " ++ js_toString computerNumber ++
               " (KEY=" ++ key ++ ").") ;;;
  (if js_strict_eq (parseInt userGuess) computerNumber
   then console_log "You guessed correctly. You go first."
   else console_log "I go first.") ;;;
  playRounds fuel this.

(** [error.message] in the [catch] of [main]. *)
Definition errorMessage {Face} `{JsRuntime Face} (err : GameError) : string :=
  match err with
  | Thrown (Error message) => message
  | Thrown (RangeError code) => rangeErrorMessage code
  | TypeError message => message
  end.

Definition usageLine : string :=
  "Usage example: node task3.js 2,2,4,4,9,9 6,8,1,1,8,6 7,5,3,7,5,3".

(** [main], with [args] standing for [process.argv.slice(2)]. *)
Definition main {Face} `{NodeCrypto} `{JsConversions Face} `{JsRuntime Face}
    (fuel : nat) (args : list string) : G unit :=
  fun w =>
    match (diceConfigurations <~ liftR (parseDiceConfig args) ;;
           game <~ liftR (GameFlow_new diceConfigurations) ;;
           startGame fuel game) w with
    | Done tt w' => Done tt w'
    | Failed error w' =>
        (console_error ("Error: " ++ errorMessage error) ;;;
         console_log usageLine) w'
    | Hung => Hung
    end.

(** ** Notions used to state properties *)

(** A character that [toString("hex")] can produce: [0-9] or [a-f]. *)
Definition isLowerHexDigit (c : ascii) : bool :=
  let code := Z.of_N (N_of_ascii c) in
  ((48 <=? code) && (code <=? 57)) || ((97 <=? code) && (code <=? 102)).

(** The next [n] bytes of the source, and the source after handing them
    out. *)
Definition nextBytes (e : Entropy) (n : nat) : list byte :=
  map (tape e) (seq (consumed e) n).

Definition advance (e : Entropy) (n : nat) : Entropy :=
  mkEntropy (tape e) (consumed e + n).

(** The [w]-byte big-endian representation of [z], the inverse of
    [beValue] on buffers of that length. *)
Definition byteOfZ (z : Z) : byte := default x00 (Byte.of_N (Z.to_N z)).

Fixpoint beBytes (w : nat) (z : Z) : list byte :=
  match w with
  | O => []
  | S w' => beBytes w' (z / 256) ++ [byteOfZ (z mod 256)]
  end.

(** A source that supplies the given bytes first and zeros after. *)
Definition tapeOf (bs : list byte) : Entropy :=
  mkEntropy (fun i => nth i bs x00) 0.

Fixpoint count_commas (s : string) : nat :=
  match s with
  | EmptyString => 0
  | String c rest =>
      if Ascii.eqb c ","%char then S (count_commas rest)
      else count_commas rest
  end.

(** The world a run ends in, when it ends. *)
Definition finalWorld {A} (r : run A) : option World :=
  match r with
  | Done _ w => Some w
  | Failed _ w => Some w
  | Hung => None
  end.

(** The lines of the dice menu, numbered from [index]. *)
Fixpoint menuFrom {Face} `{JsRuntime Face} (ds : list (Dice Face))
    (index : nat) : list Event :=
  match ds with
  | [] => []
  | dice :: rest =>
      ConsoleLog (js_toString (Num (Z.of_nat index)) ++ " - [" ++
                  join ", " (map faceToString (values dice)) ++ "]")
      :: menuFrom rest (S index)
  end.

(** What the first-move exchange of [startGame] puts on the terminal for
    a protocol instance and the user's guess. *)
Definition firstMoveLines {Face} `{JsRuntime Face}
    (p : FairNumberProtocol) (userGuess : string) : list Event :=
  [ ConsoleLog "Let's determine who makes the first move.";
    ConsoleLog ("I selected a random value in the range 0..1 (HMAC=" ++
                hmac p ++ ").");
    Question "Try to guess my selection (0 or 1): ";
    ConsoleLog ("My selection: " ++ js_toString (computerNumber p) ++
                " (KEY=" ++ secretKey p ++ ").");
    ConsoleLog (if js_strict_eq (parseInt userGuess) (computerNumber p)
                then "You guessed correctly. You go first."
                else "I go first.") ].

(** The world once [selectUserDice] has shown the menu and read the
    selection, a world with the entropy source replaced, and the lines
    [playRounds] prints for two rolls. *)
Definition selectionWorld {Face} `{JsRuntime Face} (this : GameFlow Face)
    (w : World) : World :=
  mkWorld (entropy w) (answers w) (S (asked w))
    (transcript w ++ ConsoleLog "Choose your dice:"
       :: menuFrom (diceSet this) 0 ++ [Question "Your selection: "]).

Definition withEntropy (w : World) (e : Entropy) : World :=
  mkWorld e (answers w) (asked w) (transcript w).

Definition roundLines {Face} `{JsRuntime Face} (userRoll computerRoll : option Face)
  : list Event :=
  [ ConsoleLog ("Your throw is " ++ rollToString userRoll ++ ".");
    ConsoleLog ("My throw is " ++ rollToString computerRoll ++ ".");
    ConsoleLog (if roll_gt userRoll computerRoll then "You win!"
                else if roll_lt userRoll computerRoll then "I win!"
                else "It's a draw!") ].

(** A die the sampler can serve: at least two faces, and no more than the
    exact integers reach. *)
Definition rollableDie {A} (d : Dice A) : Prop :=
  2 <= Z.of_nat (length (values d)) <= 2 ^ 53.

(** The user's selection names a die of the set. *)
Definition selects {Face} `{JsRuntime Face} (this : GameFlow Face)
    (answer : string) (i : nat) (die : Dice Face) : Prop :=
  parseInt answer = Num (Z.of_nat i) /\ diceSet this !! i = Some die.

(** The two errors [parseDiceConfig] throws. *)
Definition tooFewDice : JsError :=
  Error "Invalid number of dice. Provide at least 3 sets of 6 integers.".

Definition invalidDiceFormat (arg : string) : JsError :=
  Error ("Invalid dice format: " ++ dquote ++ arg ++ dquote ++
         ". Each dice should contain exactly 6 integers.").

(** An argument that [parseDiceConfig] takes for a die. *)
Definition wellFormedDie {Face} `{JsConversions Face} (arg : string) : bool :=
  (length (split_comma arg) =? 6)%nat &&
  negb (existsb isNaN (map Number (split_comma arg))).

(** ** Concrete instances, for running the definitions on examples *)

(** A stand-in keyed digest: the bytes of the key followed by the bytes of
    the message.  It only serves to evaluate examples. *)
Definition exampleCrypto : NodeCrypto :=
  {| hmacSha3_256 := fun key message => list_byte_of_string (key ++ message) |}.

Definition decVal (c : ascii) : option Z :=
  match hexVal c with
  | Some d => if d <? 10 then Some d else None
  | None => None
  end.

Fixpoint parseDecDigits (s : string) (acc : Z) : jsnum :=
  match s with
  | EmptyString => Num acc
  | String c rest =>
      match decVal c with
      | Some d => parseDecDigits rest (acc * 10 + d)
      | None => NaN
      end
  end.

(** [Number(s)] on its fragment of plain decimal integer literals: the
    empty string converts to 0, anything that is not all digits to [NaN]. *)
Definition exampleConversions : JsConversions jsnum :=
  {| Number := fun s => parseDecDigits s 0;
     isNaN := fun n => match n with NaN => true | _ => false end |}.

(** Entropy tapes: all bytes equal, and the bytes 0, 1, 2, ... in turn. *)
Definition constTape (b : byte) : Entropy := mkEntropy (fun _ => b) 0.

Definition countingTape : Entropy :=
  mkEntropy (fun i => default x00 (Byte.of_nat (i mod 256)%nat)) 0.

(** The runtime on integer faces, with [parseInt] on plain decimal
    literals: unlike [Number], it turns the empty string into [NaN]. *)
Definition js_lt (a b : jsnum) : bool :=
  match a, b with
  | NaN, _ | _, NaN => false
  | _, _ => negb (js_ge a b)
  end.

Definition exampleRuntime : JsRuntime jsnum :=
  {| parseInt := fun s => match s with
                          | EmptyString => NaN
                          | _ => parseDecDigits s 0
                          end;
     faceToString := js_toString;
     face_gt := fun a b => js_lt b a;
     face_lt := js_lt;
     rangeErrorMessage := fun code => code;
     undefinedCallMessage := "Cannot read properties of undefined" |}.

(** A user who types the given lines, then empty lines. *)
Definition typing (lines : list string) : nat -> string :=
  fun i => nth i lines EmptyString.

Definition exampleWorld (e : Entropy) (lines : list string) : World :=
  mkWorld e (typing lines) 0 [].

(** A source for one whole game: 32 key bytes, then a rejected and an
    accepted draw for the first move, then a rejected and an accepted draw
    for the user's roll and an accepted one for the computer's. *)
Definition gameTape : Entropy :=
  tapeOf (repeat x0a 32 ++ [xff; x01; x09; x03; x05]).

Definition gameArgs : list string :=
  ["2,2,4,4,9,9"; "6,8,1,1,8,6"; "7,5,3,7,5,3"]%string.

(** The game that [main] builds from [gameArgs]. *)
Definition gameOfArgs : GameFlow jsnum :=
  mkGameFlow (map mkDice
    [ [Num 2; Num 2; Num 4; Num 4; Num 9; Num 9];
      [Num 6; Num 8; Num 1; Num 1; Num 8; Num 6];
      [Num 7; Num 5; Num 3; Num 7; Num 5; Num 3] ]).

(** * Properties *)

(** ** Hex encoding and [parseInt] *)

Lemma hexVal_hexDigit (d : N) :
  (d < 16)%N -> hexVal (hexDigit d) = Some (Z.of_N d).
Proof.
  intros Hd.
  destruct d as [|p]; [reflexivity|].
  do 4 (destruct p as [p|p|]; try (vm_compute; reflexivity)); lia.
Qed.

Lemma byte_digits (b : byte) :
  (Byte.to_N b / 16 < 16)%N /\ (Byte.to_N b mod 16 < 16)%N /\
  Z.of_N (Byte.to_N b / 16) * 16 + Z.of_N (Byte.to_N b mod 16)
  = Z.of_N (Byte.to_N b).
Proof.
  pose proof (Byte.to_N_bounded b) as Hb.
  pose proof (N.div_mod (Byte.to_N b) 16 ltac:(lia)) as Hdm.
  pose proof (N.mod_lt (Byte.to_N b) 16 ltac:(lia)) as Hm.
  assert (Byte.to_N b / 16 < 16)%N by (apply N.Div0.div_lt_upper_bound; lia).
  repeat split; lia.
Qed.

(** Reading back the hex text of a buffer continues the big-endian fold. *)
Lemma parseHexDigits_toHex (buf : list byte) (acc : Z) (seen : bool) :
  parseHexDigits (toHex buf) acc seen =
  match buf with
  | [] => if seen then Num acc else NaN
  | _ => Num (fold_left beStep buf acc)
  end.
Proof.
  revert acc seen; induction buf as [|b rest IH]; intros acc seen.
  - reflexivity.
  - destruct (byte_digits b) as (Hhi & Hlo & Hsum).
    cbn [toHex parseHexDigits].
    rewrite (hexVal_hexDigit _ Hhi), (hexVal_hexDigit _ Hlo), IH.
    cbn [fold_left]; unfold beStep at 2.
    replace ((acc * 16 + Z.of_N (Byte.to_N b / 16)) * 16
             + Z.of_N (Byte.to_N b mod 16))
      with (acc * 256 + Z.of_N (Byte.to_N b)) by lia.
    destruct rest; reflexivity.
Qed.

(** [parseInt(buf.toString("hex"), 16)] is the big-endian value of a
    non-empty buffer, and [NaN] for the empty one. *)
Lemma parseInt16_toHex (buf : list byte) :
  parseInt16 (toHex buf) =
  match buf with [] => NaN | _ => Num (beValue buf) end.
Proof. unfold parseInt16. rewrite parseHexDigits_toHex. reflexivity. Qed.

Lemma beStep_fold_bounds (buf : list byte) (acc : Z) :
  0 <= acc ->
  0 <= fold_left beStep buf acc < (acc + 1) * 256 ^ Z.of_nat (length buf).
Proof.
  revert acc; induction buf as [|b rest IH]; intros acc Hacc.
  - cbn. lia.
  - cbn [fold_left length]. rewrite Nat2Z.inj_succ, Z.pow_succ_r by lia.
    pose proof (Byte.to_N_bounded b) as Hb.
    assert (Hs : 0 <= beStep acc b) by (unfold beStep; lia).
    specialize (IH _ Hs).
    assert (beStep acc b + 1 <= (acc + 1) * 256) by (unfold beStep; lia).
    assert (0 < 256 ^ Z.of_nat (length rest)) by (apply Z.pow_pos_nonneg; lia).
    nia.
Qed.

Lemma beValue_bounds (buf : list byte) :
  0 <= beValue buf < 256 ^ Z.of_nat (length buf).
Proof.
  pose proof (beStep_fold_bounds buf 0 ltac:(lia)) as H.
  unfold beValue. lia.
Qed.

(** ** The byte width *)

Lemma byteWidth_nonneg (n : Z) : 0 <= byteWidth n.
Proof.
  unfold byteWidth. pose proof (Z.log2_up_nonneg n).
  apply Z.div_pos; lia.
Qed.

Lemma byteWidth_one : byteWidth 1 = 0.
Proof. reflexivity. Qed.

(** [byteWidth n] is the least [w] with [n <= 2^(8w)], which is what
    [ceil(log2(n) / 8)] denotes. *)
Lemma byteWidth_spec (n : Z) :
  2 <= n ->
  1 <= byteWidth n /\
  2 ^ (8 * (byteWidth n - 1)) < n <= 2 ^ (8 * byteWidth n).
Proof.
  intros Hn. unfold byteWidth.
  destruct (Z.log2_up_spec n ltac:(lia)) as [Hlo Hhi].
  assert (HL : 1 <= Z.log2_up n)
    by (pose proof (Z.log2_up_pos n ltac:(lia)); lia).
  set (L := Z.log2_up n) in *.
  pose proof (Z.div_mod (L + 7) 8 ltac:(lia)) as Hdm.
  pose proof (Z.mod_pos_bound (L + 7) 8 ltac:(lia)) as Hm.
  set (w := (L + 7) / 8) in *.
  assert (Hw : 1 <= w) by lia.
  split; [exact Hw|]. split.
  - apply Z.le_lt_trans with (2 ^ Z.pred L); [|exact Hlo].
    apply Z.pow_le_mono_r; lia.
  - apply Z.le_trans with (2 ^ L); [exact Hhi|].
    apply Z.pow_le_mono_r; lia.
Qed.

Lemma byteWidth_safe (n : Z) : n <= 2 ^ 53 -> byteWidth n <= kMaxLength.
Proof.
  intros Hn. unfold byteWidth, kMaxLength.
  pose proof (Z.log2_up_le_mono _ _ Hn) as Hm.
  rewrite Z.log2_up_pow2 in Hm by lia.
  pose proof (Z.log2_up_nonneg n).
  assert ((Z.log2_up n + 7) / 8 <= (53 + 7) / 8) by (apply Z.div_le_mono; lia).
  change ((53 + 7) / 8) with 7 in *. lia.
Qed.

(** ** The sampling loop *)

Lemma randomBytes_ok (w : Z) (e : Entropy) :
  0 <= w <= kMaxLength ->
  randomBytes (Num w) e =
  Ret (map (tape e) (seq (consumed e) (Z.to_nat w)))
      (mkEntropy (tape e) (consumed e + Z.to_nat w)).
Proof.
  intros [H0 H1]. unfold randomBytes.
  apply Z.leb_le in H0, H1. rewrite H0, H1. reflexivity.
Qed.

Lemma randomBytes_inv (size : jsnum) (e e' : Entropy) (buf : list byte) :
  randomBytes size e = Ret buf e' ->
  exists w, size = Num w /\ 0 <= w /\
            buf = map (tape e) (seq (consumed e) (Z.to_nat w)) /\
            e' = mkEntropy (tape e) (consumed e + Z.to_nat w).
Proof.
  unfold randomBytes. destruct size as [w| | |]; try discriminate.
  destruct (0 <=? w) eqn:H0; cbn [andb]; [|discriminate].
  destruct (w <=? kMaxLength); [|discriminate].
  intros [= <- <-]. exists w. apply Z.leb_le in H0. auto.
Qed.

(** A draw of at least one byte is read back as its big-endian value. *)
Lemma draw_value (w : nat) (t : nat -> byte) (start : nat) :
  (1 <= w)%nat ->
  parseInt16 (toHex (map t (seq start w))) = Num (beValue (map t (seq start w))).
Proof.
  intros Hw. rewrite parseInt16_toHex.
  destruct w as [|w']; [lia|]. reflexivity.
Qed.

(** Whatever the loop returns was accepted: an integer below the range. *)
Lemma sampleLoop_in_range (fuel : nat) (w range : Z) (e e' : Entropy) (v : jsnum) :
  1 <= w ->
  sampleLoop fuel (Num w) range e = Ret v e' ->
  exists z, v = Num z /\ 0 <= z < range /\ z < 256 ^ w.
Proof.
  intros Hw. revert e.
  induction fuel as [|fuel IH]; intros e Hrun; [discriminate|].
  cbn [sampleLoop] in Hrun. unfold bind in Hrun.
  destruct (randomBytes (Num w) e) as [buf e1| |] eqn:Hdraw; try discriminate.
  apply randomBytes_inv in Hdraw as (w0 & [= <-] & _ & -> & ->).
  rewrite draw_value in Hrun by lia.
  set (buf := map (tape e) (seq (consumed e) (Z.to_nat w))) in *.
  cbn [js_ge] in Hrun.
  destruct (range <=? beValue buf) eqn:Hcmp.
  - eapply IH, Hrun.
  - unfold ret in Hrun. injection Hrun as <- _.
    apply Z.leb_gt in Hcmp.
    pose proof (beValue_bounds buf) as Hb.
    unfold buf in Hb at 3. rewrite length_map, length_seq, Z2Nat.id in Hb by lia.
    exists (beValue buf). repeat split; lia.
Qed.

Lemma candidate_shift (w : nat) (e : Entropy) (k : nat) :
  candidate w (mkEntropy (tape e) (consumed e + w)) k = candidate w e (S k).
Proof.
  unfold candidate. cbn [tape consumed].
  replace (consumed e + w + k * w)%nat with (consumed e + S k * w)%nat by lia.
  reflexivity.
Qed.

(** The loop returns at the first accepted candidate, having consumed
    exactly the draws up to it. *)
Lemma sampleLoop_accepts (w range : Z) (k : nat) :
  1 <= w <= kMaxLength ->
  forall (e : Entropy) (extra : nat),
    (forall j, (j < k)%nat -> range <= candidate (Z.to_nat w) e j) ->
    candidate (Z.to_nat w) e k < range ->
    sampleLoop (S k + extra) (Num w) range e =
    Ret (Num (candidate (Z.to_nat w) e k))
        (mkEntropy (tape e) (consumed e + S k * Z.to_nat w)).
Proof.
  intros Hw. induction k as [|k IH]; intros e extra Hrej Hacc.
  - cbn [Nat.add sampleLoop]. unfold bind.
    rewrite randomBytes_ok by lia. rewrite draw_value by lia.
    unfold candidate in Hacc. rewrite Nat.mul_0_l, Nat.add_0_r in Hacc.
    cbn [js_ge]. apply Z.leb_gt in Hacc. rewrite Hacc.
    unfold ret, candidate. rewrite Nat.mul_0_l, Nat.add_0_r, Nat.mul_1_l.
    reflexivity.
  - change (S (S k) + extra)%nat with (S (S k + extra)).
    cbn [sampleLoop]. unfold bind.
    rewrite randomBytes_ok by lia. rewrite draw_value by lia.
    pose proof (Hrej 0%nat ltac:(lia)) as H0.
    unfold candidate in H0. rewrite Nat.mul_0_l, Nat.add_0_r in H0.
    cbn [js_ge]. apply Z.leb_le in H0. rewrite H0.
    rewrite IH.
    + rewrite candidate_shift. cbn [tape consumed]. do 2 f_equal. lia.
    + intros j Hj. rewrite candidate_shift. apply Hrej. lia.
    + rewrite candidate_shift. exact Hacc.
Qed.

(** While every candidate is rejected the loop keeps going. *)
Lemma sampleLoop_rejects (w range : Z) (fuel : nat) :
  1 <= w <= kMaxLength ->
  forall e : Entropy,
    (forall j, (j < fuel)%nat -> range <= candidate (Z.to_nat w) e j) ->
    sampleLoop fuel (Num w) range e = Spin.
Proof.
  intros Hw. induction fuel as [|fuel IH]; intros e Hrej; [reflexivity|].
  cbn [sampleLoop]. unfold bind.
  rewrite randomBytes_ok by lia. rewrite draw_value by lia.
  pose proof (Hrej 0%nat ltac:(lia)) as H0.
  unfold candidate in H0. rewrite Nat.mul_0_l, Nat.add_0_r in H0.
  cbn [js_ge]. apply Z.leb_le in H0. rewrite H0.
  apply IH. intros j Hj. rewrite candidate_shift. apply Hrej. lia.
Qed.

(** ** RandomGenerator.generateSecureRandomNumber *)

Lemma byteSizeOf_pos (range : Z) :
  1 <= range -> byteSizeOf range = Num (byteWidth range).
Proof.
  intros Hr. unfold byteSizeOf.
  destruct (range <? 0) eqn:H0; [apply Z.ltb_lt in H0; lia|].
  destruct (range =? 0) eqn:H1; [apply Z.eqb_eq in H1; lia|].
  reflexivity.
Qed.

(** For a range of at least 2, a returned sample is an integer of
    [[0, range)]. *)
Lemma generateSecureRandomNumber_in_range
    (fuel : nat) (range : Z) (e e' : Entropy) (v : jsnum) :
  2 <= range ->
  generateSecureRandomNumber fuel range e = Ret v e' ->
  exists z, v = Num z /\ 0 <= z < range.
Proof.
  intros Hr Hrun. unfold generateSecureRandomNumber in Hrun.
  rewrite byteSizeOf_pos in Hrun by lia.
  destruct (byteWidth_spec range Hr) as (Hw & _).
  destruct (sampleLoop_in_range _ _ _ _ _ _ Hw Hrun) as (z & -> & Hz & _).
  exists z. auto.
Qed.

(** For a range of at least 2 (within the exact integers), the call
    returns as soon as the tape offers a candidate below the range: with
    the first such candidate at draw [k], any fuel above [k] suffices, the
    result is that candidate and [k + 1] draws were consumed. *)
Lemma generateSecureRandomNumber_returns
    (range : Z) (k extra : nat) (e : Entropy) :
  2 <= range <= 2 ^ 53 ->
  let w := Z.to_nat (byteWidth range) in
  (forall j, (j < k)%nat -> range <= candidate w e j) ->
  candidate w e k < range ->
  generateSecureRandomNumber (S k + extra) range e =
  Ret (Num (candidate w e k)) (mkEntropy (tape e) (consumed e + S k * w)) /\
  0 <= candidate w e k < range.
Proof.
  intros [Hlo Hhi] w Hrej Hacc.
  destruct (byteWidth_spec range Hlo) as (Hw & _).
  pose proof (byteWidth_safe range Hhi) as Hmax.
  split.
  - unfold generateSecureRandomNumber. rewrite byteSizeOf_pos by lia.
    apply sampleLoop_accepts; [lia|exact Hrej|exact Hacc].
  - split; [|exact Hacc].
    unfold candidate. apply beValue_bounds.
Qed.

(** Such a tape exists for every range: a draw of zero bytes only is the
    candidate 0. *)
Lemma candidate_zero_tape (w k : nat) : candidate w (constTape x00) k = 0.
Proof.
  unfold candidate, constTape, beValue. cbn [tape consumed].
  generalize (0 + k * w)%nat as start.
  induction w as [|w IH]; intros start; [reflexivity|].
  cbn [seq map fold_left]. apply IH.
Qed.

(** And termination does depend on the tape: on bytes 255 only, a call
    with range 2 outlives every fuel. *)
Lemma generateSecureRandomNumber_may_spin (fuel : nat) :
  generateSecureRandomNumber fuel 2 (constTape xff) = Spin.
Proof.
  unfold generateSecureRandomNumber.
  change (byteSizeOf 2) with (Num 1).
  apply sampleLoop_rejects; [unfold kMaxLength; lia|].
  intros j _. change (Z.to_nat 1) with 1%nat.
  unfold candidate, constTape. cbn [tape seq map].
  change (beValue [xff]) with 255. lia.
Qed.

(** Range 1: no byte is drawn and the empty hex string parses to [NaN],
    which the loop condition lets through. *)
Lemma generateSecureRandomNumber_one (fuel : nat) (e : Entropy) :
  generateSecureRandomNumber (S fuel) 1 e = Ret NaN e.
Proof.
  unfold generateSecureRandomNumber. change (byteSizeOf 1) with (Num 0).
  cbn [sampleLoop]. unfold bind.
  rewrite randomBytes_ok by (unfold kMaxLength; lia).
  change (Z.to_nat 0) with 0%nat. rewrite Nat.add_0_r.
  destruct e as [t c]. reflexivity.
Qed.

(** C1, at the input where it fails.  Claim: for every range [n >= 1] the
    sampler returns an integer of [[0, n)], and [sample(1)] always returns
    0.  For range 1 the byte width is 0, the empty buffer prints as the
    empty hex string, [parseInt] of it is [NaN], and [NaN >= 1] is false:
    the first iteration returns [NaN], for every tape, having drawn
    nothing. *)
Theorem sample_of_range_one_is_NaN (fuel : nat) (e : Entropy) :
  generateSecureRandomNumber (S fuel) 1 e = Ret NaN e /\
  ~ (exists z, 0 <= z < 1 /\
               generateSecureRandomNumber (S fuel) 1 e = Ret (Num z) e).
Proof.
  pose proof (generateSecureRandomNumber_one fuel e) as Hrun.
  split; [exact Hrun|].
  intros (z & _ & Hz). rewrite Hrun in Hz. discriminate.
Qed.

(** C3, as stated, fails: for range 2 one byte is drawn, so there are 256
    candidates, not fewer than 4. *)
Lemma candidate_space_not_below_twice_range :
  ~ (forall n, 1 <= n -> candidateSpace n < 2 * n).
Proof.
  intros H. specialize (H 2 ltac:(lia)).
  vm_compute in H. discriminate.
Qed.

(** C3, amended: for every range [n] from 1 up to [2^53] the candidate
    space [2^(8w)], [w = ceil(log2(n) / 8)], covers the range and is less
    than 256 times as large: [n <= 2^(8w) < 256 n].  A draw is thus
    accepted with probability above 1/256, and the expected number of
    draws is below 256. *)
Theorem candidate_space_bounds (n : Z) :
  1 <= n <= 2 ^ 53 -> n <= candidateSpace n < 256 * n.
Proof.
  intros [Hn _]. unfold candidateSpace.
  destruct (Z.eq_dec n 1) as [->|Hne]; [vm_compute; split; congruence|].
  destruct (byteWidth_spec n ltac:(lia)) as (Hw & Hlo & Hhi).
  split; [exact Hhi|].
  replace (8 * byteWidth n) with (8 * (byteWidth n - 1) + 8) by lia.
  rewrite Z.pow_add_r by lia.
  change (2 ^ 8) with 256. lia.
Qed.

Lemma candidate_space_bounds_witness :
  1 <= 257 <= 2 ^ 53 /\ 257 <= candidateSpace 257 < 256 * 257.
Proof.
  assert (H : 1 <= 257 <= 2 ^ 53)
    by (change (2 ^ 53) with 9007199254740992; lia).
  split; [exact H | apply (candidate_space_bounds 257); exact H].
Defined.

(** C4.  Claim: for every range [<= 0] the sampler fails at the call,
    before consuming entropy or returning a value.  The byte count is
    [-Infinity] for 0 and [NaN] below 0; [crypto.randomBytes] rejects both
    with its range error in the first iteration, and the tape is the one
    the call started with. *)
Theorem sample_of_nonpositive_range_throws
    (fuel : nat) (range : Z) (e : Entropy) :
  range <= 0 ->
  generateSecureRandomNumber (S fuel) range e
  = Throw (RangeError "ERR_OUT_OF_RANGE") e.
Proof.
  intros Hr. unfold generateSecureRandomNumber, byteSizeOf.
  destruct (range <? 0) eqn:Hneg; [reflexivity|].
  apply Z.ltb_ge in Hneg.
  assert (range = 0) as -> by lia.
  reflexivity.
Qed.

Lemma sample_of_nonpositive_range_throws_witness :
  generateSecureRandomNumber 1 0 countingTape
  = Throw (RangeError "ERR_OUT_OF_RANGE") countingTape /\
  generateSecureRandomNumber 5 (-3) countingTape
  = Throw (RangeError "ERR_OUT_OF_RANGE") countingTape.
Proof.
  split.
  - apply (sample_of_nonpositive_range_throws 0 0 countingTape). lia.
  - apply (sample_of_nonpositive_range_throws 4 (-3) countingTape). lia.
Defined.

(** ** RandomGenerator.generateHMAC *)

(** C8.  Claim: [generateHMAC] is deterministic.  The call draws nothing
    from the entropy source and never throws, so two calls with the same
    key and value return the same digest whatever the state of the source
    at either call, and leave that state as it was. *)
Theorem generateHMAC_deterministic `{NodeCrypto}
    (key : string) (value : jsnum) (e1 e2 : Entropy) :
  exists digest,
    generateHMAC key value e1 = Ret digest e1 /\
    generateHMAC key value e2 = Ret digest e2.
Proof.
  exists (toHex (hmacSha3_256 key (js_toString value))).
  split; reflexivity.
Qed.

(** By contrast the key generator reads the source: two states of it give
    two keys. *)
Lemma generateSecureRandomKey_reads_entropy :
  exists k1 k2 e1 e2,
    generateSecureRandomKey (constTape x00) = Ret k1 e1 /\
    generateSecureRandomKey (constTape xff) = Ret k2 e2 /\
    k1 <> k2.
Proof.
  do 4 eexists. split; [reflexivity|]. split; [reflexivity|].
  vm_compute. discriminate.
Qed.

(** ** FairNumberProtocol *)

(** What a completed construction has done, step by step. *)
Lemma FairNumberProtocol_new_inv `{NodeCrypto}
    (fuel : nat) (n : Z) (e e' : Entropy) (p : FairNumberProtocol) :
  FairNumberProtocol_new fuel n e = Ret p e' ->
  exists key e1 number,
    generateSecureRandomKey e = Ret key e1 /\
    generateSecureRandomNumber fuel n e1 = Ret number e' /\
    p = mkProtocol n key number
          (toHex (hmacSha3_256 key (js_toString number))).
Proof.
  unfold FairNumberProtocol_new, bind at 1.
  destruct (generateSecureRandomKey e) as [key e1| |] eqn:Hkey;
    try discriminate.
  unfold bind at 1.
  destruct (generateSecureRandomNumber fuel n e1) as [number e2| |] eqn:Hnum;
    try discriminate.
  unfold bind, generateHMAC, ret. intros [= <- <-].
  exists key, e1, number. auto.
Qed.

Lemma run_calls_total (cs : list method) (this : FairNumberProtocol) :
  exists vs, run_calls cs this = Ok (vs, this) /\ length vs = length cs.
Proof.
  induction cs as [|c rest (vs & Hrun & Hlen)].
  - exists []. split; reflexivity.
  - assert (Hc : exists v, invoke c this = Ok (v, this))
      by (destruct c; eexists; reflexivity).
    destruct Hc as (v & Hc).
    exists (v :: vs). cbn [run_calls]. rewrite Hc. cbn [rbind].
    rewrite Hrun. cbn [rbind length]. auto.
Qed.




(** C7, as stated, fails: a constructed instance answers a request for the
    commitment made after the key was revealed, which is out of the
    prescribed order; nothing is raised. *)
Lemma out_of_order_requests_are_answered :
  exists p e',
    FairNumberProtocol_new (H := exampleCrypto) 1 2 (constTape x00) = Ret p e' /\
    spec_in_order Committed [CallRevealKey; CallGetHMAC] = false /\
    run_calls [CallRevealKey; CallGetHMAC] p
    = Ok ([VStr (secretKey p); VStr (hmac p)], p) /\
    ~ (exists err, run_calls [CallRevealKey; CallGetHMAC] p = Raise err).
Proof.
  eexists. eexists. split; [reflexivity|].
  split; [reflexivity|]. split; [reflexivity|].
  intros (err & Herr). discriminate.
Qed.

(** C7, amended: the class keeps no protocol state.  The commit step runs
    inside the constructor, so every constructed instance already holds
    the commitment to its key and value; after that [getHMAC],
    [revealKey], [getComputerNumber] and [calculateResult] answer in any
    order and any number of times, one value per request, and none
    raises. *)
Theorem protocol_requests_never_raise `{NodeCrypto}
    (fuel : nat) (n : Z) (e e' : Entropy) (p : FairNumberProtocol) :
  FairNumberProtocol_new fuel n e = Ret p e' ->
  generateHMAC (secretKey p) (computerNumber p) e' = Ret (hmac p) e' /\
  forall cs : list method,
    (exists vs, run_calls cs p = Ok (vs, p) /\ length vs = length cs) /\
    (forall err, run_calls cs p <> Raise err).
Proof.
  intros Hnew.
  destruct (FairNumberProtocol_new_inv _ _ _ _ _ Hnew)
    as (key & e1 & number & _ & _ & ->).
  split; [reflexivity|].
  intros cs. destruct (run_calls_total cs (mkProtocol n key number
    (toHex (hmacSha3_256 key (js_toString number))))) as (vs & Hrun & Hlen).
  split; [exists vs; auto|].
  intros err Herr. rewrite Hrun in Herr. discriminate.
Qed.

Lemma protocol_requests_never_raise_witness :
  exists p e',
    FairNumberProtocol_new (H := exampleCrypto) 1 2 (constTape x00) = Ret p e' /\
    forall err,
      run_calls [CallCalculateResult (Num 1); CallGetHMAC] p <> Raise err.
Proof.
  eexists. eexists. split; [reflexivity|].
  destruct (protocol_requests_never_raise (H := exampleCrypto)
              1 2 (constTape x00) _ _ eq_refl) as (_ & Hcalls).
  apply (Hcalls [CallCalculateResult (Num 1); CallGetHMAC]).
Defined.

(** C9.  Claim: after construction no operation modifies [secretKey],
    [computerNumber], [hmac] or [range].  Each of the four methods hands
    back the object it received, and so does every sequence of them. *)
Theorem protocol_fields_are_immutable
    (this : FairNumberProtocol) (u : jsnum) (cs : list method) :
  (exists v, getHMAC this = Ok (v, this)) /\
  (exists v, revealKey this = Ok (v, this)) /\
  (exists v, getComputerNumber this = Ok (v, this)) /\
  (exists v, calculateResult u this = Ok (v, this)) /\
  (exists vs this',
     run_calls cs this = Ok (vs, this') /\
     range this' = range this /\ secretKey this' = secretKey this /\
     computerNumber this' = computerNumber this /\ hmac this' = hmac this).
Proof.
  repeat (split; [eexists; reflexivity|]).
  destruct (run_calls_total cs this) as (vs & Hrun & _).
  exists vs, this. auto.
Qed.

(** ** Dice *)

(** A die with at least two faces returns one of its faces whenever the
    roll returns. *)
Lemma roll_in_faces {A} (fuel : nat) (this : Dice A) (e e' : Entropy)
    (r : option A) :
  (2 <= length (values this))%nat ->
  roll fuel this e = Ret r e' ->
  exists i face,
    r = Some face /\ values this !! i = Some face /\ In face (values this).
Proof.
  intros Hlen. unfold roll, bind.
  destruct (generateSecureRandomNumber fuel
              (Z.of_nat (length (values this))) e)
    as [idx e1| |] eqn:Hsample; try discriminate.
  unfold ret. intros [= <- <-].
  assert (Hrange : 2 <= Z.of_nat (length (values this))) by lia.
  destruct (generateSecureRandomNumber_in_range _ _ _ _ _ Hrange Hsample)
    as (z & -> & Hz).
  cbn [js_index]. destruct (z <? 0) eqn:Hneg; [apply Z.ltb_lt in Hneg; lia|].
  assert (Hpos : (Z.to_nat z < length (values this))%nat) by lia.
  destruct (lookup_lt_is_Some_2 (values this) (Z.to_nat z) Hpos)
    as (face & Hface).
  exists (Z.to_nat z), face. rewrite Hface.
  split; [reflexivity|]. split; [reflexivity|].
  apply list_elem_of_In. eapply list_elem_of_lookup_2, Hface.
Qed.

Lemma roll_example_in_faces (fuel : nat) (e e' : Entropy) (r : option Z) :
  roll fuel (mkDice [2; 2; 4; 4; 9; 9]) e = Ret r e' ->
  r = Some 2 \/ r = Some 4 \/ r = Some 9.
Proof.
  intros Hroll.
  set (die := mkDice [2; 2; 4; 4; 9; 9]) in *.
  assert (Hlen : (2 <= length (values die))%nat) by (cbn; lia).
  destruct (roll_in_faces _ _ _ _ _ Hlen Hroll) as (i & face & -> & _ & Hin).
  cbn in Hin. intuition (subst; auto).
Qed.

(** C6, at the input where it fails.  Claim: a die built from a non-empty
    face list always rolls one of its faces.  A die with a single face
    asks the sampler for range 1, gets [NaN], and indexing the face array
    with [NaN] is [undefined]: the roll returns no face, on every tape. *)
Theorem single_face_die_rolls_undefined {A} (face : A) (fuel : nat)
    (e : Entropy) :
  roll (S fuel) (mkDice [face]) e = Ret None e /\
  ~ (exists r e', roll (S fuel) (mkDice [face]) e = Ret (Some r) e').
Proof.
  assert (Hroll : roll (S fuel) (mkDice [face]) e = Ret None e).
  { unfold roll, bind. cbn [values length Z.of_nat Pos.of_succ_nat].
    change (Z.pos 1) with 1. rewrite generateSecureRandomNumber_one.
    reflexivity. }
  split; [exact Hroll|].
  intros (r & e' & Hr). rewrite Hroll in Hr. discriminate.
Qed.

(** C5, as stated, fails: the constructor accepts the empty face list. *)
Lemma empty_die_is_constructed :
  Dice_new (@nil Z) = Ok (mkDice []) /\
  ~ (exists err, Dice_new (@nil Z) = Raise err).
Proof.
  split; [reflexivity|]. intros (err & Herr). discriminate.
Qed.

(** C5, amended: constructing a die never fails; the constructor stores
    whatever face list it is given, the empty one included.  It is the
    first roll of an empty die that fails, with the range error of the
    sampler called on range 0, before any entropy is drawn. *)
Theorem dice_constructor_accepts_any_faces {A} (faces : list A)
    (fuel : nat) (e : Entropy) :
  Dice_new faces = Ok (mkDice faces) /\
  roll (S fuel) (mkDice (@nil A)) e = Throw (RangeError "ERR_OUT_OF_RANGE") e.
Proof.
  split; reflexivity.
Qed.

(** ** DiceConfigParser and the dice of a game *)

Lemma mapR_Ok {A B} (f : A -> result B) (xs : list A) (ys : list B) :
  mapR f xs = Ok ys -> Forall2 (fun x y => f x = Ok y) xs ys.
Proof.
  revert ys; induction xs as [|x rest IH]; intros ys; cbn [mapR].
  - intros [= <-]. constructor.
  - destruct (f x) as [y|] eqn:Hx; cbn [rbind]; [|discriminate].
    destruct (mapR f rest) as [ys'|]; cbn [rbind]; [|discriminate].
    intros [= <-]. constructor; auto.
Qed.

Lemma parseDie_Ok {Face} `{JsConversions Face} (arg : string)
    (dice : list Face) :
  parseDie arg = Ok dice ->
  dice = map Number (split_comma arg) /\
  length dice = 6%nat /\ Forall (fun face => isNaN face = false) dice.
Proof.
  unfold parseDie.
  destruct (length (map Number (split_comma arg)) =? 6)%nat eqn:Hlen;
    cbn [negb orb]; [|discriminate].
  destruct (existsb isNaN (map Number (split_comma arg))) eqn:Hnan;
    [discriminate|].
  intros [= <-]. split; [reflexivity|].
  split; [apply Nat.eqb_eq, Hlen|].
  apply Forall_forall. intros face Hin.
  destruct (isNaN face) eqn:Hface; [|reflexivity].
  assert (existsb isNaN (map Number (split_comma arg)) = true)
    by (apply existsb_exists; exists face; split;
        [apply list_elem_of_In, Hin | exact Hface]).
  congruence.
Qed.

(** C10.  Claim: [parseDiceConfig] either throws or returns at least 3
    dice of exactly 6 numeric faces each, so every die the program
    constructs has 6 faces.  A returned list has one die per argument, at
    least 3 of them, each being the 6 converted pieces of its argument
    with no [NaN] among them; the game built from it holds exactly these
    face lists. *)
Theorem parseDiceConfig_invariant {Face} `{JsConversions Face}
    (args : list string) (dice : list (list Face)) :
  parseDiceConfig args = Ok dice ->
  (3 <= length dice)%nat /\
  length dice = length args /\
  Forall (fun die => length die = 6%nat /\
                     Forall (fun face => isNaN face = false) die) dice /\
  exists game,
    main_setup args = Ok game /\
    map values (diceSet game) = dice /\
    Forall (fun d => length (values d) = 6%nat) (diceSet game).
Proof.
  intros Hparse. pose proof Hparse as Hp. unfold parseDiceConfig in Hp.
  destruct (length args <? 3)%nat eqn:Hargs; [discriminate|].
  apply Nat.ltb_ge in Hargs.
  apply mapR_Ok in Hp.
  pose proof (Forall2_length _ _ _ Hp) as Hlen.
  assert (Hdice : Forall (fun die => length die = 6%nat /\
                     Forall (fun face => isNaN face = false) die) dice).
  { clear Hparse Hlen Hargs. induction Hp as [|arg die args' dice' Hd _ IH].
    - constructor.
    - constructor; [|exact IH].
      destruct (parseDie_Ok _ _ Hd) as (_ & H6 & Hnum). auto. }
  split; [lia|]. split; [lia|]. split; [exact Hdice|].
  exists (mkGameFlow (map mkDice dice)).
  assert (Hnew : GameFlow_new dice = Ok (mkGameFlow (map mkDice dice))).
  { unfold GameFlow_new.
    assert (Hm : mapR Dice_new dice = Ok (map mkDice dice)).
    { clear. induction dice as [|d rest IH]; [reflexivity|].
      cbn [mapR map]. unfold Dice_new at 1. cbn [rbind].
      rewrite IH. reflexivity. }
    rewrite Hm. reflexivity. }
  split; [unfold main_setup; rewrite Hparse; exact Hnew|].
  cbn [diceSet]. split.
  - rewrite map_map. cbn [values]. apply map_id.
  - apply Forall_map. cbn [values].
    eapply Forall_impl; [exact Hdice|]. intros die [H6 _]. exact H6.
Qed.

Lemma parseDiceConfig_invariant_witness :
  exists dice,
    parseDiceConfig (H := exampleConversions)
      ["2,2,4,4,9,9"; "6,8,1,1,8,6"; "7,5,3,7,5,3"]%string = Ok dice /\
    (3 <= length dice)%nat /\
    Forall (fun die =>
              length die = 6%nat /\
              Forall (fun face => @isNaN _ exampleConversions face = false)
                     die) dice.
Proof.
  eexists. split; [reflexivity|].
  destruct (parseDiceConfig_invariant (H := exampleConversions)
              ["2,2,4,4,9,9"; "6,8,1,1,8,6"; "7,5,3,7,5,3"]%string _ eq_refl)
    as (H3 & _ & Hdice & _).
  split; [exact H3 | exact Hdice].
Defined.

(** * Further properties of the code *)

(** ** Hex text of a buffer *)

Lemma toHex_length (buf : list byte) :
  String.length (toHex buf) = (2 * length buf)%nat.
Proof.
  induction buf as [|b rest IH]; [reflexivity|].
  cbn [toHex String.length length]. rewrite IH. lia.
Qed.

Lemma byte_of_digits (a b : byte) :
  hexDigit (Byte.to_N a / 16) = hexDigit (Byte.to_N b / 16) ->
  hexDigit (Byte.to_N a mod 16) = hexDigit (Byte.to_N b mod 16) ->
  a = b.
Proof.
  intros Hhi Hlo.
  destruct (byte_digits a) as (Ha1 & Ha2 & Ha).
  destruct (byte_digits b) as (Hb1 & Hb2 & Hb).
  apply (f_equal hexVal) in Hhi, Hlo.
  rewrite !hexVal_hexDigit in Hhi, Hlo by assumption.
  injection Hhi as Hhi. injection Hlo as Hlo.
  assert (HN : Byte.to_N a = Byte.to_N b) by lia.
  pose proof (Byte.of_to_N a) as Hoa. pose proof (Byte.of_to_N b) as Hob.
  rewrite HN in Hoa. congruence.
Qed.

Lemma toHex_inj (a b : list byte) : toHex a = toHex b -> a = b.
Proof.
  revert b; induction a as [|x a IH]; intros [|y b] Heq;
    try reflexivity; try discriminate.
  cbn [toHex] in Heq. injection Heq as Hhi Hlo Hrest.
  f_equal; [apply byte_of_digits; assumption | apply IH, Hrest].
Qed.

Lemma nextBytes_length (e : Entropy) (n : nat) : length (nextBytes e n) = n.
Proof. unfold nextBytes. rewrite length_map, length_seq. reflexivity. Qed.

Lemma generateSecureRandomKey_eq (e : Entropy) :
  generateSecureRandomKey e = Ret (toHex (nextBytes e 32)) (advance e 32).
Proof. reflexivity. Qed.

Lemma hexDigit_lower (d : N) :
  (d < 16)%N -> isLowerHexDigit (hexDigit d) = true.
Proof.
  intros Hd.
  destruct d as [|q]; [reflexivity|].
  do 4 (destruct q as [q|q|]; try (vm_compute; reflexivity)); lia.
Qed.

Lemma toHex_lower (buf : list byte) :
  Forall (fun c => isLowerHexDigit c = true)
         (list_ascii_of_string (toHex buf)).
Proof.
  induction buf as [|b rest IH]; [constructor|].
  destruct (byte_digits b) as (Hhi & Hlo & _).
  cbn [toHex list_ascii_of_string].
  constructor; [apply hexDigit_lower, Hhi|].
  constructor; [apply hexDigit_lower, Hlo | exact IH].
Qed.

(** X1.  [generateSecureRandomKey] cannot fail: it takes exactly the next
    32 bytes of the source and returns their hex text, a string of 64
    characters each of which is one of [0-9a-f]. *)
Theorem generateSecureRandomKey_shape (e : Entropy) :
  exists key,
    generateSecureRandomKey e = Ret key (advance e 32) /\
    key = toHex (nextBytes e 32) /\
    String.length key = 64%nat /\
    Forall (fun c => isLowerHexDigit c = true) (list_ascii_of_string key).
Proof.
  exists (toHex (nextBytes e 32)).
  split; [reflexivity|]. split; [reflexivity|].
  split; [rewrite toHex_length, nextBytes_length; reflexivity|].
  apply toHex_lower.
Qed.

(** X2.  The key keeps all the entropy of its 32 bytes: two calls return
    the same key exactly when the bytes they drew are the same. *)
Theorem generateSecureRandomKey_injective
    (e1 e2 e1' e2' : Entropy) (k1 k2 : string) :
  generateSecureRandomKey e1 = Ret k1 e1' ->
  generateSecureRandomKey e2 = Ret k2 e2' ->
  (k1 = k2 <-> nextBytes e1 32 = nextBytes e2 32).
Proof.
  rewrite !generateSecureRandomKey_eq. intros H1 H2.
  assert (Hk1 : k1 = toHex (nextBytes e1 32)) by congruence.
  assert (Hk2 : k2 = toHex (nextBytes e2 32)) by congruence.
  subst k1 k2. split; [apply toHex_inj | intros ->; reflexivity].
Qed.

Lemma generateSecureRandomKey_injective_witness :
  exists k1 k2 e1' e2',
    generateSecureRandomKey (constTape x00) = Ret k1 e1' /\
    generateSecureRandomKey countingTape = Ret k2 e2' /\
    (k1 = k2 <-> nextBytes (constTape x00) 32 = nextBytes countingTape 32).
Proof.
  do 4 eexists. split; [reflexivity|]. split; [reflexivity|].
  apply (generateSecureRandomKey_injective (constTape x00) countingTape
           _ _ _ _ eq_refl eq_refl).
Defined.

(** ** The sampler on ranges of at least 2 *)

Lemma first_accepted_or_all_rejected (cand : nat -> Z) (n : Z) (fuel : nat) :
  (exists k, (k < fuel)%nat /\ (forall j, (j < k)%nat -> n <= cand j) /\
             cand k < n) \/
  (forall j, (j < fuel)%nat -> n <= cand j).
Proof.
  induction fuel as [|fuel [(k & Hk & Hrej & Hacc)|Hall]].
  - right. intros j Hj. lia.
  - left. exists k. split; [lia|]. auto.
  - destruct (Z_lt_le_dec (cand fuel) n) as [Hlt|Hge].
    + left. exists fuel. split; [lia|]. auto.
    + right. intros j Hj.
      destruct (Nat.eq_dec j fuel) as [->|Hne]; [exact Hge|].
      apply Hall. lia.
Qed.

Lemma sampler_accepts (range : Z) (fuel k : nat) (e : Entropy) :
  2 <= range <= 2 ^ 53 ->
  (k < fuel)%nat ->
  (forall j, (j < k)%nat -> range <= candidate (Z.to_nat (byteWidth range)) e j) ->
  candidate (Z.to_nat (byteWidth range)) e k < range ->
  generateSecureRandomNumber fuel range e =
  Ret (Num (candidate (Z.to_nat (byteWidth range)) e k))
      (advance e (S k * Z.to_nat (byteWidth range))).
Proof.
  intros Hr Hk Hrej Hacc.
  replace fuel with (S k + (fuel - S k))%nat by lia.
  apply generateSecureRandomNumber_returns; assumption.
Qed.

Lemma sampler_rejects (range : Z) (fuel : nat) (e : Entropy) :
  2 <= range <= 2 ^ 53 ->
  (forall j, (j < fuel)%nat ->
             range <= candidate (Z.to_nat (byteWidth range)) e j) ->
  generateSecureRandomNumber fuel range e = Spin.
Proof.
  intros [Hlo Hhi] Hrej.
  destruct (byteWidth_spec range Hlo) as (Hw & _).
  pose proof (byteWidth_safe range Hhi) as Hmax.
  unfold generateSecureRandomNumber. rewrite byteSizeOf_pos by lia.
  apply sampleLoop_rejects; [lia | exact Hrej].
Qed.

Lemma sampler_inv (range : Z) (fuel : nat) (e e' : Entropy) (v : jsnum) :
  2 <= range <= 2 ^ 53 ->
  generateSecureRandomNumber fuel range e = Ret v e' ->
  exists k,
    (k < fuel)%nat /\
    (forall j, (j < k)%nat ->
               range <= candidate (Z.to_nat (byteWidth range)) e j) /\
    0 <= candidate (Z.to_nat (byteWidth range)) e k < range /\
    v = Num (candidate (Z.to_nat (byteWidth range)) e k) /\
    e' = advance e (S k * Z.to_nat (byteWidth range)).
Proof.
  intros Hr Hrun.
  destruct (first_accepted_or_all_rejected
              (candidate (Z.to_nat (byteWidth range)) e) range fuel)
    as [(k & Hk & Hrej & Hacc)|Hall].
  - rewrite (sampler_accepts range fuel k e Hr Hk Hrej Hacc) in Hrun.
    injection Hrun as <- <-.
    exists k. repeat split; auto.
    unfold candidate. apply beValue_bounds.
  - rewrite (sampler_rejects range fuel e Hr Hall) in Hrun. discriminate.
Qed.

(** X3.  For a range from 2 up to [2^53], the sampler returns exactly the
    first candidate on the tape that is below the range: the result is that
    candidate, an integer of [[0, range)], every earlier candidate was at
    least the range, and the bytes consumed are those of the draws up to
    and including the accepted one, no more. *)
Theorem sample_is_first_accepted_candidate
    (range : Z) (fuel : nat) (e e' : Entropy) (v : jsnum) :
  2 <= range <= 2 ^ 53 ->
  let w := Z.to_nat (byteWidth range) in
  generateSecureRandomNumber fuel range e = Ret v e' <->
  exists k,
    (k < fuel)%nat /\
    (forall j, (j < k)%nat -> range <= candidate w e j) /\
    0 <= candidate w e k < range /\
    v = Num (candidate w e k) /\
    e' = advance e (S k * w).
Proof.
  intros Hr w. split.
  - apply sampler_inv, Hr.
  - intros (k & Hk & Hrej & [_ Hacc] & -> & ->).
    apply sampler_accepts; assumption.
Qed.

Lemma sample_is_first_accepted_candidate_witness :
  generateSecureRandomNumber 2 6 (tapeOf [x09; x03])
  = Ret (Num 3) (advance (tapeOf [x09; x03]) 2).
Proof.
  apply (sample_is_first_accepted_candidate 6 2 (tapeOf [x09; x03])).
  - change (2 ^ 53) with 9007199254740992. lia.
  - exists 1%nat. split; [lia|]. split.
    + intros j Hj. assert (j = 0%nat) as -> by lia. vm_compute. discriminate.
    + split; [vm_compute; split; congruence|]. split; reflexivity.
Defined.

(** X4.  On such a range the sampler never throws, and it is still looping
    when the fuel runs out exactly when every candidate drawn so far was
    rejected: nothing but an unlucky tape keeps it from returning. *)
Theorem sample_never_throws_spins_iff_all_rejected
    (range : Z) (fuel : nat) (e : Entropy) :
  2 <= range <= 2 ^ 53 ->
  (forall err e', generateSecureRandomNumber fuel range e <> Throw err e') /\
  (generateSecureRandomNumber fuel range e = Spin <->
   forall j, (j < fuel)%nat ->
             range <= candidate (Z.to_nat (byteWidth range)) e j).
Proof.
  intros Hr.
  destruct (first_accepted_or_all_rejected
              (candidate (Z.to_nat (byteWidth range)) e) range fuel)
    as [(k & Hk & Hrej & Hacc)|Hall].
  - pose proof (sampler_accepts range fuel k e Hr Hk Hrej Hacc) as Hret.
    split.
    + intros err e' Hthrow. rewrite Hret in Hthrow. discriminate.
    + split.
      * intros Hspin. rewrite Hret in Hspin. discriminate.
      * intros Hall. specialize (Hall k Hk). lia.
  - pose proof (sampler_rejects range fuel e Hr Hall) as Hspin.
    split.
    + intros err e' Hthrow. rewrite Hspin in Hthrow. discriminate.
    + split; auto.
Qed.

Lemma sample_never_throws_spins_iff_all_rejected_witness :
  (forall err e',
     generateSecureRandomNumber 3 6 (constTape xff) <> Throw err e') /\
  (generateSecureRandomNumber 3 6 (constTape xff) = Spin <->
   forall j, (j < 3)%nat ->
             6 <= candidate (Z.to_nat (byteWidth 6)) (constTape xff) j).
Proof.
  apply (sample_never_throws_spins_iff_all_rejected 6 3 (constTape xff)).
  change (2 ^ 53) with 9007199254740992. lia.
Defined.

(** ** Draws and the values they stand for *)

Lemma byteOfZ_value (m : Z) :
  0 <= m < 256 -> Z.of_N (Byte.to_N (byteOfZ m)) = m.
Proof.
  intros Hm. unfold byteOfZ.
  destruct (Byte.of_N (Z.to_N m)) as [b|] eqn:Hof.
  - apply Byte.to_of_N in Hof. change (default x00 (Some b)) with b.
    rewrite Hof. apply Z2N.id. lia.
  - apply Byte.of_N_None_iff in Hof.
    assert (Z.of_N (Z.to_N m) = m) by (apply Z2N.id; lia). lia.
Qed.

Lemma byteOfZ_to_N (b : byte) : byteOfZ (Z.of_N (Byte.to_N b)) = b.
Proof.
  unfold byteOfZ. rewrite N2Z.id, Byte.of_to_N. reflexivity.
Qed.

Lemma beValue_snoc (buf : list byte) (b : byte) :
  beValue (buf ++ [b]) = beValue buf * 256 + Z.of_N (Byte.to_N b).
Proof. unfold beValue. rewrite fold_left_app. reflexivity. Qed.

Lemma beBytes_length (w : nat) (z : Z) : length (beBytes w z) = w.
Proof.
  revert z; induction w as [|w IH]; intros z; [reflexivity|].
  cbn [beBytes]. rewrite length_app, IH. cbn. lia.
Qed.

Lemma beValue_beBytes (w : nat) (z : Z) :
  0 <= z < 256 ^ Z.of_nat w -> beValue (beBytes w z) = z.
Proof.
  revert z; induction w as [|w IH]; intros z Hz.
  - cbn in *. lia.
  - rewrite Nat2Z.inj_succ, Z.pow_succ_r in Hz by lia.
    cbn [beBytes]. rewrite beValue_snoc.
    pose proof (Z.mod_pos_bound z 256 ltac:(lia)) as Hm.
    pose proof (Z.div_mod z 256 ltac:(lia)) as Hdm.
    rewrite byteOfZ_value by lia.
    rewrite IH; [lia|].
    split; [apply Z.div_pos; lia|].
    apply Z.div_lt_upper_bound; lia.
Qed.

Lemma beBytes_beValue (buf : list byte) :
  beBytes (length buf) (beValue buf) = buf.
Proof.
  induction buf as [|b buf IH] using rev_ind; [reflexivity|].
  rewrite length_app, Nat.add_1_r, beValue_snoc. cbn [length beBytes].
  pose proof (Byte.to_N_bounded b) as Hb.
  pose proof (beValue_bounds buf) as Hv.
  set (v := beValue buf) in *. set (x := Z.of_N (Byte.to_N b)).
  assert (Hx : 0 <= x < 256) by (unfold x; lia).
  replace ((v * 256 + x) / 256) with v
    by (apply Z.div_unique with x; lia).
  replace ((v * 256 + x) mod 256) with x
    by (apply Z.mod_unique with v; lia).
  rewrite IH. unfold x. rewrite byteOfZ_to_N. reflexivity.
Qed.

Lemma beValue_inj (a b : list byte) :
  length a = length b -> beValue a = beValue b -> a = b.
Proof.
  intros Hlen Hval.
  rewrite <- (beBytes_beValue a), <- (beBytes_beValue b), Hlen, Hval.
  reflexivity.
Qed.

Lemma parseInt16_nonempty (buf : list byte) :
  (1 <= length buf)%nat -> parseInt16 (toHex buf) = Num (beValue buf).
Proof.
  intros Hlen. rewrite parseInt16_toHex.
  destruct buf; [cbn in Hlen; lia | reflexivity].
Qed.

Lemma byteWidth_covers (range : Z) :
  2 <= range ->
  (1 <= Z.to_nat (byteWidth range))%nat /\
  range <= 256 ^ Z.of_nat (Z.to_nat (byteWidth range)).
Proof.
  intros Hr. destruct (byteWidth_spec range Hr) as (Hw & _ & Hhi).
  split; [lia|].
  rewrite Z2Nat.id by lia.
  change 256 with (2 ^ 8). rewrite <- Z.pow_mul_r by lia. exact Hhi.
Qed.

Lemma candidate_is_next_draw (w : nat) (e : Entropy) (k : nat) :
  candidate w e k = beValue (nextBytes (advance e (k * w)) w).
Proof. reflexivity. Qed.

(** X5.  No value of the range is favoured by the sampler: for a range
    from 2 up to [2^53] and every [z] of [[0, range)], the sampler returns
    [z] exactly when the draw it accepts, the first one below the range,
    is the one buffer of the drawn width that holds [z] big-endian.  Each
    result thus comes from exactly one of the equally likely draws. *)
Theorem each_value_has_exactly_one_draw
    (range z : Z) (fuel : nat) (e e' : Entropy) :
  2 <= range <= 2 ^ 53 ->
  0 <= z < range ->
  let w := Z.to_nat (byteWidth range) in
  length (beBytes w z) = w /\
  (generateSecureRandomNumber fuel range e = Ret (Num z) e' <->
   exists k,
     (k < fuel)%nat /\
     (forall j, (j < k)%nat -> range <= candidate w e j) /\
     nextBytes (advance e (k * w)) w = beBytes w z /\
     e' = advance e (S k * w)).
Proof.
  intros Hr Hz w.
  destruct (byteWidth_covers range ltac:(lia)) as (Hw & Hcover).
  fold w in Hw, Hcover.
  assert (Hval : beValue (beBytes w z) = z)
    by (apply beValue_beBytes; lia).
  split; [apply beBytes_length|]. split.
  - intros Hrun.
    destruct (sampler_inv range fuel _ _ _ Hr Hrun)
      as (k & Hk & Hrej & _ & Hnum & He).
    fold w in Hrej, Hnum, He. injection Hnum as Hnum.
    exists k. split; [exact Hk|]. split; [exact Hrej|]. split; [|exact He].
    apply beValue_inj.
    + rewrite nextBytes_length, beBytes_length. reflexivity.
    + rewrite <- candidate_is_next_draw, Hval. symmetry. exact Hnum.
  - intros (k & Hk & Hrej & Hbytes & ->).
    assert (Hcand : candidate w e k = z)
      by (rewrite candidate_is_next_draw, Hbytes; exact Hval).
    pose proof (sampler_accepts range fuel k e Hr Hk Hrej) as Hret.
    fold w in Hret. rewrite Hcand in Hret. apply Hret. lia.
Qed.

Lemma each_value_has_exactly_one_draw_witness :
  generateSecureRandomNumber 2 6 (tapeOf [x09; x03])
  = Ret (Num 3) (advance (tapeOf [x09; x03]) 2).
Proof.
  assert (Hr : 2 <= 6 <= 2 ^ 53)
    by (change (2 ^ 53) with 9007199254740992; lia).
  assert (Hz : 0 <= 3 < 6) by lia.
  apply (proj2 (each_value_has_exactly_one_draw 6 3 2 (tapeOf [x09; x03])
                  (advance (tapeOf [x09; x03]) 2) Hr Hz)).
  exists 1%nat. split; [lia|]. split.
  - intros j Hj. assert (j = 0%nat) as -> by lia. vm_compute. discriminate.
  - split; reflexivity.
Defined.

Lemma map_nth_seq_all {A} (xs : list A) (d : A) :
  map (fun i => nth i xs d) (seq 0 (length xs)) = xs.
Proof.
  induction xs as [|x xs IH]; [reflexivity|].
  cbn [length seq map nth]. f_equal.
  rewrite <- seq_shift, map_map. exact IH.
Qed.

Lemma candidate_tapeOf (bs : list byte) :
  candidate (length bs) (tapeOf bs) 0 = beValue bs.
Proof.
  unfold candidate, tapeOf. cbn [tape consumed].
  rewrite Nat.mul_0_l. cbn [Nat.add]. rewrite map_nth_seq_all. reflexivity.
Qed.

Lemma sampler_on_encoded_tape (range z : Z) (fuel : nat) :
  2 <= range <= 2 ^ 53 ->
  0 <= z < range ->
  generateSecureRandomNumber (S fuel) range
    (tapeOf (beBytes (Z.to_nat (byteWidth range)) z))
  = Ret (Num z)
        (advance (tapeOf (beBytes (Z.to_nat (byteWidth range)) z))
                 (Z.to_nat (byteWidth range))).
Proof.
  intros Hr Hz. set (w := Z.to_nat (byteWidth range)).
  destruct (byteWidth_covers range ltac:(lia)) as (Hw & Hcover).
  fold w in Hw, Hcover.
  assert (Hcand : candidate w (tapeOf (beBytes w z)) 0 = z).
  { pose proof (candidate_tapeOf (beBytes w z)) as Hc.
    rewrite beBytes_length in Hc. rewrite Hc.
    apply beValue_beBytes. lia. }
  pose proof (sampler_accepts range (S fuel) 0 (tapeOf (beBytes w z)) Hr
                ltac:(lia)) as Hret.
  fold w in Hret. rewrite Hcand in Hret.
  rewrite Hret; [|intros j Hj; lia|lia].
  rewrite Nat.mul_1_l. reflexivity.
Qed.

(** X6.  Every value of the range can come out: for a range from 2 up to
    [2^53] and every [z] of [[0, range)], on the tape that starts with the
    big-endian bytes of [z] the sampler returns [z] at its first draw. *)
Theorem every_value_is_sampled_on_some_tape (range z : Z) (fuel : nat) :
  2 <= range <= 2 ^ 53 ->
  0 <= z < range ->
  let w := Z.to_nat (byteWidth range) in
  generateSecureRandomNumber (S fuel) range (tapeOf (beBytes w z))
  = Ret (Num z) (advance (tapeOf (beBytes w z)) w).
Proof.
  intros Hr Hz w. apply sampler_on_encoded_tape; assumption.
Qed.

Lemma every_value_is_sampled_on_some_tape_witness :
  generateSecureRandomNumber 1 300 (tapeOf (beBytes 2 299))
  = Ret (Num 299) (advance (tapeOf (beBytes 2 299)) 2).
Proof.
  apply (every_value_is_sampled_on_some_tape 300 299 0).
  - change (2 ^ 53) with 9007199254740992. lia.
  - lia.
Defined.

Lemma byteWidth_pow256 (k : Z) : 1 <= k -> byteWidth (256 ^ k) = k.
Proof.
  intros Hk.
  assert (Hn : 256 ^ k = 2 ^ (8 * k))
    by (change 256 with (2 ^ 8); rewrite <- Z.pow_mul_r by lia; reflexivity).
  assert (H2 : 2 <= 256 ^ k).
  { rewrite Hn. change 2 with (2 ^ 1) at 1. apply Z.pow_le_mono_r; lia. }
  destruct (byteWidth_spec _ H2) as (Hw & Hlo & Hhi).
  set (w := byteWidth (256 ^ k)) in *.
  rewrite Hn in Hlo, Hhi.
  apply Z.pow_lt_mono_r_iff in Hlo; [|lia|lia].
  apply Z.pow_le_mono_r_iff in Hhi; [|lia|lia].
  lia.
Qed.

(** X7.  When the range is a power of 256 (up to [256^6]) the loop never
    rejects: whatever the tape, the first draw is returned. *)
Theorem power_of_256_range_accepts_first_draw
    (k : Z) (fuel : nat) (e : Entropy) :
  1 <= k <= 6 ->
  generateSecureRandomNumber (S fuel) (256 ^ k) e
  = Ret (Num (candidate (Z.to_nat k) e 0)) (advance e (Z.to_nat k)) /\
  0 <= candidate (Z.to_nat k) e 0 < 256 ^ k.
Proof.
  intros Hk.
  assert (Hbound : 0 <= candidate (Z.to_nat k) e 0 < 256 ^ k).
  { unfold candidate.
    pose proof (beValue_bounds
                  (map (tape e) (seq (consumed e + 0 * Z.to_nat k)
                                     (Z.to_nat k)))) as Hb.
    rewrite length_map, length_seq, Z2Nat.id in Hb by lia. exact Hb. }
  split; [|exact Hbound].
  assert (Hr : 2 <= 256 ^ k <= 2 ^ 53).
  { change 256 with (2 ^ 8). rewrite <- Z.pow_mul_r by lia. split.
    - change 2 with (2 ^ 1) at 1. apply Z.pow_le_mono_r; lia.
    - apply Z.pow_le_mono_r; lia. }
  pose proof (sampler_accepts (256 ^ k) (S fuel) 0 e Hr ltac:(lia)) as Hret.
  rewrite byteWidth_pow256 in Hret by lia.
  rewrite Hret; [|intros j Hj; lia|lia].
  rewrite Nat.mul_1_l. reflexivity.
Qed.

Lemma power_of_256_range_accepts_first_draw_witness :
  generateSecureRandomNumber 1 (256 ^ 2) (constTape xff)
  = Ret (Num (candidate (Z.to_nat 2) (constTape xff) 0))
        (advance (constTape xff) (Z.to_nat 2)) /\
  0 <= candidate (Z.to_nat 2) (constTape xff) 0 < 256 ^ 2.
Proof.
  apply (power_of_256_range_accepts_first_draw 2 0 (constTape xff)). lia.
Defined.

(** ** The constructor of FairNumberProtocol *)

Lemma sampler_nonpositive (fuel : nat) (range : Z) (e : Entropy) :
  range <= 0 ->
  generateSecureRandomNumber (S fuel) range e
  = Throw (RangeError "ERR_OUT_OF_RANGE") e.
Proof.
  intros Hr. unfold generateSecureRandomNumber, byteSizeOf.
  destruct (range <? 0) eqn:Hneg; [reflexivity|].
  apply Z.ltb_ge in Hneg. replace range with 0 by lia. reflexivity.
Qed.

Lemma FairNumberProtocol_new_unfold `{NodeCrypto}
    (fuel : nat) (n : Z) (e : Entropy) :
  FairNumberProtocol_new fuel n e =
  match generateSecureRandomNumber fuel n (advance e 32) with
  | Ret number e' =>
      Ret (mkProtocol n (toHex (nextBytes e 32)) number
             (toHex (hmacSha3_256 (toHex (nextBytes e 32))
                                  (js_toString number)))) e'
  | Throw err e' => Throw err e'
  | Spin => Spin
  end.
Proof.
  unfold FairNumberProtocol_new, bind at 1.
  rewrite generateSecureRandomKey_eq. unfold bind at 1.
  destruct (generateSecureRandomNumber fuel n (advance e 32)); reflexivity.
Qed.

(** X8.  Constructing a protocol for a range [<= 0] throws the range
    error of the sampler, but only after the secret key has been drawn:
    the 32 key bytes are gone from the source when the exception leaves
    the constructor. *)
Theorem protocol_of_nonpositive_range_throws_after_key `{NodeCrypto}
    (fuel : nat) (n : Z) (e : Entropy) :
  n <= 0 ->
  FairNumberProtocol_new (S fuel) n e
  = Throw (RangeError "ERR_OUT_OF_RANGE") (advance e 32).
Proof.
  intros Hn. rewrite FairNumberProtocol_new_unfold.
  rewrite sampler_nonpositive by exact Hn. reflexivity.
Qed.

Lemma protocol_of_nonpositive_range_throws_after_key_witness :
  FairNumberProtocol_new (H := exampleCrypto) 1 0 countingTape
  = Throw (RangeError "ERR_OUT_OF_RANGE") (advance countingTape 32).
Proof.
  apply (protocol_of_nonpositive_range_throws_after_key
           (H := exampleCrypto) 0 0 countingTape).
  lia.
Defined.

(** X9.  For a range from 2 up to [2^53] the constructor returns exactly
    when the sampler finds an accepted candidate in the bytes that follow
    the key.  The instance then holds the range, the hex text of the first
    32 bytes as key, that candidate as committed number and the digest of
    the two as commitment; key and number come from disjoint bytes. *)
Theorem protocol_construction_characterised `{NodeCrypto}
    (fuel : nat) (n : Z) (e e' : Entropy) (p : FairNumberProtocol) :
  2 <= n <= 2 ^ 53 ->
  let w := Z.to_nat (byteWidth n) in
  FairNumberProtocol_new fuel n e = Ret p e' <->
  exists k,
    (k < fuel)%nat /\
    (forall j, (j < k)%nat -> n <= candidate w (advance e 32) j) /\
    0 <= candidate w (advance e 32) k < n /\
    p = mkProtocol n (toHex (nextBytes e 32))
          (Num (candidate w (advance e 32) k))
          (toHex (hmacSha3_256 (toHex (nextBytes e 32))
                    (js_toString (Num (candidate w (advance e 32) k))))) /\
    e' = advance (advance e 32) (S k * w).
Proof.
  intros Hn w. rewrite FairNumberProtocol_new_unfold. split.
  - destruct (generateSecureRandomNumber fuel n (advance e 32))
      as [number e1| |] eqn:Hnum; try discriminate.
    intros [= <- <-].
    apply (sampler_inv n fuel _ _ _ Hn) in Hnum.
    destruct Hnum as (k & Hk & Hrej & Hacc & -> & ->).
    exists k. repeat split; auto; apply Hacc.
  - intros (k & Hk & Hrej & [_ Hacc] & -> & ->).
    rewrite (sampler_accepts n fuel k (advance e 32) Hn Hk Hrej Hacc).
    reflexivity.
Qed.

Lemma protocol_construction_characterised_witness :
  FairNumberProtocol_new (H := exampleCrypto) 2 2 gameTape
  = Ret (mkProtocol 2 (toHex (nextBytes gameTape 32)) (Num 1)
           (toHex (@hmacSha3_256 exampleCrypto
                     (toHex (nextBytes gameTape 32)) "1")))
        (advance (advance gameTape 32) 2).
Proof.
  apply (protocol_construction_characterised (H := exampleCrypto)
           2 2 gameTape).
  - change (2 ^ 53) with 9007199254740992. lia.
  - exists 1%nat. split; [lia|]. split.
    + intros j Hj. assert (j = 0%nat) as -> by lia. vm_compute. discriminate.
    + split; [vm_compute; split; congruence|]. split; reflexivity.
Defined.

(** X10.  A protocol over the range 1 commits to [NaN]: construction
    succeeds after drawing the key only, the committed number is [NaN],
    the commitment is the digest of the text "NaN", and every result
    computed from it is [NaN]. *)
Theorem protocol_of_range_one_commits_to_NaN `{NodeCrypto}
    (fuel : nat) (e : Entropy) :
  exists p,
    FairNumberProtocol_new (S fuel) 1 e = Ret p (advance e 32) /\
    range p = 1 /\
    secretKey p = toHex (nextBytes e 32) /\
    computerNumber p = NaN /\
    hmac p = toHex (hmacSha3_256 (secretKey p) "NaN") /\
    forall u, calculateResult u p = Ok (NaN, p).
Proof.
  eexists. rewrite FairNumberProtocol_new_unfold.
  rewrite generateSecureRandomNumber_one.
  split; [reflexivity|]. cbn [range secretKey computerNumber hmac].
  repeat (split; [reflexivity|]).
  intros u. unfold calculateResult. cbn [computerNumber range].
  destruct u; reflexivity.
Qed.

(** ** Rolling a die *)

Lemma sampler_no_throw (range : Z) (fuel : nat) (e e' : Entropy)
    (err : JsError) :
  2 <= range <= 2 ^ 53 ->
  generateSecureRandomNumber fuel range e <> Throw err e'.
Proof.
  intros Hr Hthrow.
  destruct (first_accepted_or_all_rejected
              (candidate (Z.to_nat (byteWidth range)) e) range fuel)
    as [(k & Hk & Hrej & Hacc)|Hall].
  - rewrite (sampler_accepts range fuel k e Hr Hk Hrej Hacc) in Hthrow.
    discriminate.
  - rewrite (sampler_rejects range fuel e Hr Hall) in Hthrow. discriminate.
Qed.

Lemma roll_unfold {A} (fuel : nat) (this : Dice A) (e : Entropy) :
  roll fuel this e =
  match generateSecureRandomNumber fuel
          (Z.of_nat (length (values this))) e with
  | Ret randomIndex e' => Ret (js_index (values this) randomIndex) e'
  | Throw err e' => Throw err e'
  | Spin => Spin
  end.
Proof. reflexivity. Qed.

Lemma js_index_in_range {A} (arr : list A) (z : Z) :
  0 <= z < Z.of_nat (length arr) ->
  exists x, js_index arr (Num z) = Some x /\
            arr !! Z.to_nat z = Some x /\ In x arr.
Proof.
  intros Hz. cbn [js_index].
  destruct (z <? 0) eqn:Hneg; [apply Z.ltb_lt in Hneg; lia|].
  assert (Hpos : (Z.to_nat z < length arr)%nat) by lia.
  destruct (lookup_lt_is_Some_2 arr (Z.to_nat z) Hpos) as (x & Hx).
  exists x. split; [exact Hx|]. split; [exact Hx|].
  apply list_elem_of_In. eapply list_elem_of_lookup_2, Hx.
Qed.

(** X11.  A die of at least two faces (and at most [2^53]) rolls the face
    at the position the sampler returns: the roll returns exactly when a
    candidate below the number of faces turns up, its value is then the
    face at that position, never [undefined], and it consumes only the
    bytes of the draws made. *)
Theorem roll_returns_face_at_first_accepted_candidate {A}
    (fuel : nat) (this : Dice A) (e e' : Entropy) (r : option A) :
  2 <= Z.of_nat (length (values this)) <= 2 ^ 53 ->
  let n := Z.of_nat (length (values this)) in
  let w := Z.to_nat (byteWidth n) in
  (roll fuel this e = Ret r e' <->
   exists k,
     (k < fuel)%nat /\
     (forall j, (j < k)%nat -> n <= candidate w e j) /\
     0 <= candidate w e k < n /\
     r = values this !! Z.to_nat (candidate w e k) /\
     e' = advance e (S k * w)) /\
  (roll fuel this e = Ret r e' ->
   exists face, r = Some face /\ In face (values this)).
Proof.
  intros Hlen n w. subst w.
  assert (Hfwd : roll fuel this e = Ret r e' ->
     exists k,
       (k < fuel)%nat /\
       (forall j, (j < k)%nat -> n <= candidate (Z.to_nat (byteWidth n)) e j) /\
       0 <= candidate (Z.to_nat (byteWidth n)) e k < n /\
       r = values this !! Z.to_nat (candidate (Z.to_nat (byteWidth n)) e k) /\
       e' = advance e (S k * Z.to_nat (byteWidth n))).
  { rewrite roll_unfold. fold n.
    destruct (generateSecureRandomNumber fuel n e) as [idx e1| |] eqn:Hs;
      try discriminate.
    intros [= <- <-].
    destruct (sampler_inv n fuel _ _ _ Hlen Hs)
      as (k & Hk & Hrej & Hacc & -> & ->).
    exists k. repeat split; auto; try apply Hacc.
    destruct (js_index_in_range (values this) _ Hacc) as (x & -> & -> & _).
    reflexivity. }
  split; [split; [exact Hfwd|]|].
  - intros (k & Hk & Hrej & Hacc & -> & ->).
    rewrite roll_unfold. fold n.
    rewrite (sampler_accepts n fuel k e Hlen Hk Hrej (proj2 Hacc)).
    destruct (js_index_in_range (values this) _ Hacc) as (x & -> & -> & _).
    reflexivity.
  - intros Hroll. destruct (Hfwd Hroll) as (k & _ & _ & Hacc & -> & _).
    destruct (js_index_in_range (values this) _ Hacc) as (x & _ & -> & Hin).
    exists x. auto.
Qed.

Lemma roll_returns_face_at_first_accepted_candidate_witness :
  roll 2 (mkDice [7; 5; 3; 7; 5; 3]) (tapeOf [x09; x04])
  = Ret (Some 5) (advance (tapeOf [x09; x04]) 2).
Proof.
  apply (roll_returns_face_at_first_accepted_candidate
           2 (mkDice [7; 5; 3; 7; 5; 3]) (tapeOf [x09; x04])).
  - cbn. change (2 ^ 53) with 9007199254740992. lia.
  - exists 1%nat. split; [lia|]. split.
    + intros j Hj. assert (j = 0%nat) as -> by lia. vm_compute. discriminate.
    + split; [vm_compute; split; congruence|]. split; reflexivity.
Defined.

(** X12.  Every face of such a die can be rolled: for each position of
    the face list there is a tape on which the first draw selects it. *)
Theorem every_face_can_be_rolled {A}
    (fuel : nat) (this : Dice A) (i : nat) (face : A) :
  2 <= Z.of_nat (length (values this)) <= 2 ^ 53 ->
  values this !! i = Some face ->
  exists e e', roll (S fuel) this e = Ret (Some face) e'.
Proof.
  intros Hlen Hface.
  assert (Hi : (i < length (values this))%nat)
    by (eapply lookup_lt_Some, Hface).
  set (n := Z.of_nat (length (values this))) in *.
  set (bytes := beBytes (Z.to_nat (byteWidth n)) (Z.of_nat i)).
  exists (tapeOf bytes), (advance (tapeOf bytes) (Z.to_nat (byteWidth n))).
  rewrite roll_unfold. fold n.
  unfold bytes. rewrite sampler_on_encoded_tape by (unfold n; lia).
  cbn [js_index]. destruct (Z.of_nat i <? 0) eqn:Hneg;
    [apply Z.ltb_lt in Hneg; lia|].
  rewrite Nat2Z.id, Hface. reflexivity.
Qed.

Lemma every_face_can_be_rolled_witness :
  exists e e', roll 1 (mkDice [2; 2; 4; 4; 9; 9]) e = Ret (Some 9) e'.
Proof.
  apply (every_face_can_be_rolled 0 (mkDice [2; 2; 4; 4; 9; 9]) 5 9).
  - cbn. change (2 ^ 53) with 9007199254740992. lia.
  - reflexivity.
Defined.

(** X13.  Only the empty die makes [roll] throw: for a die of at most
    [2^53] faces, a roll ends in an exception exactly when the face list
    is empty. *)
Theorem roll_throws_iff_die_is_empty {A}
    (fuel : nat) (this : Dice A) (e : Entropy) :
  Z.of_nat (length (values this)) <= 2 ^ 53 ->
  (exists err e', roll (S fuel) this e = Throw err e') <->
  values this = [].
Proof.
  intros Hlen. rewrite roll_unfold.
  destruct (values this) as [|x [|y rest]] eqn:Hvals.
  - cbn [length Z.of_nat]. rewrite sampler_nonpositive by lia.
    split; [reflexivity|]. intros _. eauto.
  - cbn [length Z.of_nat Pos.of_succ_nat].
    change (Z.pos 1) with 1. rewrite generateSecureRandomNumber_one.
    split; [|discriminate]. intros (err & e' & Hthrow). discriminate.
  - split; [|discriminate]. intros (err & e' & Hthrow). exfalso.
    set (n := Z.of_nat (length (x :: y :: rest))) in *.
    assert (Hn : 2 <= n <= 2 ^ 53)
      by (split; [unfold n; cbn [length]; lia | exact Hlen]).
    destruct (generateSecureRandomNumber (S fuel) n e)
      as [idx e1|err1 e1|] eqn:Hs; try discriminate.
    exact (sampler_no_throw n (S fuel) e e1 err1 Hn Hs).
Qed.

Lemma roll_throws_iff_die_is_empty_witness :
  (exists err e', roll 1 (mkDice (@nil Z)) countingTape = Throw err e') <->
  values (mkDice (@nil Z)) = [].
Proof.
  apply (roll_throws_iff_die_is_empty 0 (mkDice (@nil Z)) countingTape).
  cbn. lia.
Defined.

(** ** Splitting an argument at its commas *)

Lemma split_comma_cons (s : string) :
  exists piece pieces, split_comma s = piece :: pieces.
Proof.
  destruct s as [|c rest]; [eexists; eexists; reflexivity|].
  cbn [split_comma]. destruct (Ascii.eqb c ","%char).
  - eexists; eexists; reflexivity.
  - destruct (split_comma rest); eexists; eexists; reflexivity.
Qed.

Lemma split_comma_length (s : string) :
  length (split_comma s) = S (count_commas s).
Proof.
  induction s as [|c rest IH]; [reflexivity|].
  cbn [split_comma count_commas]. destruct (Ascii.eqb c ","%char).
  - cbn [length]. rewrite IH. reflexivity.
  - destruct (split_comma_cons rest) as (piece & pieces & Hsp).
    rewrite Hsp in *. exact IH.
Qed.

Lemma split_comma_pieces (s : string) :
  Forall (fun piece => count_commas piece = 0%nat) (split_comma s).
Proof.
  induction s as [|c rest IH]; [repeat constructor|].
  cbn [split_comma]. destruct (Ascii.eqb c ","%char) eqn:Hc.
  - constructor; [reflexivity | exact IH].
  - destruct (split_comma_cons rest) as (piece & pieces & Hsp).
    rewrite Hsp in *. inversion IH as [|? ? Hpiece Hrest]; subst.
    constructor; [|exact Hrest].
    cbn [count_commas]. rewrite Hc. exact Hpiece.
Qed.

Lemma join_cons (sep x y : string) (rest : list string) :
  join sep (x :: y :: rest) = (x ++ sep ++ join sep (y :: rest))%string.
Proof. reflexivity. Qed.

Lemma join_split_comma (s : string) : join "," (split_comma s) = s.
Proof.
  induction s as [|c rest IH]; [reflexivity|].
  cbn [split_comma]. destruct (Ascii.eqb c ","%char) eqn:Hc.
  - apply Ascii.eqb_eq in Hc. subst c.
    destruct (split_comma_cons rest) as (piece & pieces & Hsp).
    rewrite Hsp in *. rewrite join_cons, IH. reflexivity.
  - destruct (split_comma_cons rest) as (piece & pieces & Hsp).
    rewrite Hsp in *. destruct pieces as [|next more].
    + rewrite <- IH. reflexivity.
    + rewrite <- IH. reflexivity.
Qed.

(** X14.  [arg.split(",")] loses nothing: joining the pieces with commas
    gives the argument back, there is one piece more than there are commas
    (so never none), and no piece contains a comma. *)
Theorem split_comma_round_trip (s : string) :
  join "," (split_comma s) = s /\
  length (split_comma s) = S (count_commas s) /\
  Forall (fun piece => count_commas piece = 0%nat) (split_comma s).
Proof.
  split; [apply join_split_comma|].
  split; [apply split_comma_length | apply split_comma_pieces].
Qed.

Lemma split_comma_plain (piece : string) :
  count_commas piece = 0%nat -> split_comma piece = [piece].
Proof.
  induction piece as [|c rest IH]; [reflexivity|].
  cbn [count_commas split_comma].
  destruct (Ascii.eqb c ","%char); [discriminate|].
  intros Hrest. rewrite (IH Hrest). reflexivity.
Qed.

Lemma split_comma_app (piece s : string) :
  count_commas piece = 0%nat ->
  split_comma (piece ++ String ","%char s) = piece :: split_comma s.
Proof.
  induction piece as [|c rest IH]; [reflexivity|].
  cbn [count_commas String.append split_comma].
  destruct (Ascii.eqb c ","%char); [discriminate|].
  intros Hrest. rewrite (IH Hrest). reflexivity.
Qed.

(** X15.  Conversely, splitting the comma-joined text of a non-empty list
    of comma-free pieces gives back exactly these pieces. *)
Theorem split_comma_of_join (pieces : list string) :
  pieces <> [] ->
  Forall (fun piece => count_commas piece = 0%nat) pieces ->
  split_comma (join "," pieces) = pieces.
Proof.
  intros Hne Hall. induction Hall as [|piece rest Hpiece Hrest IH];
    [congruence|].
  destruct rest as [|next more].
  - cbn. apply split_comma_plain, Hpiece.
  - rewrite join_cons.
    change ("," ++ join "," (next :: more))%string
      with (String ","%char (join "," (next :: more))).
    rewrite split_comma_app by exact Hpiece.
    rewrite IH by discriminate. reflexivity.
Qed.

Lemma split_comma_of_join_witness :
  split_comma (join "," ["2"; ""; "x y"; "9"]%string)
  = ["2"; ""; "x y"; "9"]%string.
Proof.
  apply (split_comma_of_join ["2"; ""; "x y"; "9"]%string).
  - discriminate.
  - repeat constructor.
Defined.

(** ** What [parseDiceConfig] accepts and what it reports *)

Lemma parseDie_wellFormed {Face} `{JsConversions Face} (arg : string) :
  parseDie arg =
  if wellFormedDie arg then Ok (map Number (split_comma arg))
  else Raise (invalidDiceFormat arg).
Proof.
  unfold parseDie, wellFormedDie, invalidDiceFormat.
  rewrite length_map.
  destruct (length (split_comma arg) =? 6)%nat; cbn [negb orb andb];
    [|reflexivity].
  destruct (existsb isNaN (map Number (split_comma arg))); reflexivity.
Qed.

Lemma mapR_parseDie {Face} `{JsConversions Face} (args : list string) :
  (Forall (fun arg => wellFormedDie arg = true) args /\
   mapR parseDie args
   = Ok (map (fun arg => map Number (split_comma arg)) args)) \/
  (exists good bad rest,
     args = good ++ bad :: rest /\
     Forall (fun arg => wellFormedDie arg = true) good /\
     wellFormedDie bad = false /\
     mapR parseDie args = Raise (invalidDiceFormat bad)).
Proof.
  induction args as [|arg args IH].
  - left. split; [constructor | reflexivity].
  - cbn [mapR map]. rewrite parseDie_wellFormed.
    destruct (wellFormedDie arg) eqn:Hwf; cbn [rbind].
    + destruct IH as [(Hall & ->)|(good & bad & rest & -> & Hgood & Hbad & ->)].
      * left. split; [constructor; assumption | reflexivity].
      * right. exists (arg :: good), bad, rest.
        split; [reflexivity|]. split; [constructor; assumption|].
        split; [exact Hbad | reflexivity].
    + right. exists [], arg, args.
      split; [reflexivity|]. split; [constructor|].
      split; [exact Hwf | reflexivity].
Qed.

Lemma first_bad_unique {A} (P : A -> bool) (g1 g2 : list A) (b1 b2 : A)
    (r1 r2 : list A) :
  g1 ++ b1 :: r1 = g2 ++ b2 :: r2 ->
  Forall (fun x => P x = true) g1 -> P b1 = false ->
  Forall (fun x => P x = true) g2 -> P b2 = false ->
  b1 = b2.
Proof.
  revert g2; induction g1 as [|x g1 IH]; intros [|y g2] Heq H1 Hb1 H2 Hb2;
    cbn in Heq; injection Heq as Hhead Htail.
  - exact Hhead.
  - subst y. inversion H2; subst. congruence.
  - subst x. inversion H1; subst. congruence.
  - inversion H1; inversion H2; subst. eapply IH; eassumption.
Qed.

(** X16.  [parseDiceConfig] returns exactly when there are at least 3
    arguments and each has 6 comma-separated pieces none of which converts
    to [NaN]; the result is then the list of the converted pieces,
    argument by argument and in order. *)
Theorem parseDiceConfig_accepts_iff {Face} `{JsConversions Face}
    (args : list string) (dice : list (list Face)) :
  parseDiceConfig args = Ok dice <->
  (3 <= length args)%nat /\
  Forall (fun arg => wellFormedDie arg = true) args /\
  dice = map (fun arg => map Number (split_comma arg)) args.
Proof.
  unfold parseDiceConfig.
  destruct (length args <? 3)%nat eqn:Hlen.
  - apply Nat.ltb_lt in Hlen. split; [discriminate|]. intros (H3 & _). lia.
  - apply Nat.ltb_ge in Hlen.
    destruct (mapR_parseDie args)
      as [(Hall & ->)|(good & bad & rest & -> & Hgood & Hbad & ->)].
    + split.
      * intros [= <-]. auto.
      * intros (_ & _ & ->). reflexivity.
    + split; [discriminate|]. intros (_ & Hall & _).
      apply Forall_app in Hall as (_ & Hall).
      inversion Hall; subst. congruence.
Qed.

(** X17.  The errors of [parseDiceConfig], completely: with fewer than 3
    arguments it reports the wrong number of dice, whatever the arguments
    look like; with 3 or more it reports the first argument, from the
    left, that is not a die of 6 numbers, by its text. *)
Theorem parseDiceConfig_reports_iff {Face} `{JsConversions Face}
    (args : list string) (err : JsError) :
  parseDiceConfig args = Raise err <->
  ((length args < 3)%nat /\ err = tooFewDice) \/
  ((3 <= length args)%nat /\
   exists good bad rest,
     args = good ++ bad :: rest /\
     Forall (fun arg => wellFormedDie arg = true) good /\
     wellFormedDie bad = false /\
     err = invalidDiceFormat bad).
Proof.
  unfold parseDiceConfig.
  destruct (length args <? 3)%nat eqn:Hlen.
  - apply Nat.ltb_lt in Hlen. split.
    + intros [= <-]. left. auto.
    + intros [(_ & ->)|(H3 & _)]; [reflexivity | lia].
  - apply Nat.ltb_ge in Hlen.
    destruct (mapR_parseDie args)
      as [(Hall & ->)|(good & bad & rest & Hargs & Hgood & Hbad & ->)].
    + split; [discriminate|].
      intros [(Hlt & _)|(_ & good & bad & rest & -> & _ & Hbad & _)]; [lia|].
      apply Forall_app in Hall as (_ & Hall).
      inversion Hall; subst. congruence.
    + split.
      * intros [= <-]. right. split; [exact Hlen|].
        exists good, bad, rest. auto.
      * intros [(Hlt & _)|(_ & g2 & b2 & r2 & Hargs2 & Hg2 & Hb2 & ->)];
          [lia|].
        rewrite Hargs in Hargs2.
        rewrite (first_bad_unique _ _ _ _ _ _ _ Hargs2 Hgood Hbad Hg2 Hb2).
        reflexivity.
Qed.

(** X18.  Every argument that [parseDiceConfig] accepts contains exactly
    five commas. *)
Theorem accepted_arguments_have_five_commas {Face} `{JsConversions Face}
    (args : list string) (dice : list (list Face)) :
  parseDiceConfig args = Ok dice ->
  Forall (fun arg => count_commas arg = 5%nat) args.
Proof.
  intros Hparse. unfold parseDiceConfig in Hparse.
  destruct (length args <? 3)%nat; [discriminate|].
  destruct (mapR_parseDie args)
    as [(Hall & _)|(good & bad & rest & _ & _ & _ & Hraise)];
    [|rewrite Hraise in Hparse; discriminate].
  eapply Forall_impl; [exact Hall|].
  intros arg Hwf. unfold wellFormedDie in Hwf.
  apply andb_prop in Hwf as (Hlen & _). apply Nat.eqb_eq in Hlen.
  rewrite split_comma_length in Hlen. lia.
Qed.

Lemma accepted_arguments_have_five_commas_witness :
  Forall (fun arg => count_commas arg = 5%nat) gameArgs.
Proof.
  apply (accepted_arguments_have_five_commas (H := exampleConversions)
           gameArgs _ eq_refl).
Defined.

(** ** The game on the terminal *)

Lemma world_eta (w : World) :
  mkWorld (entropy w) (answers w) (asked w) (transcript w) = w.
Proof. destruct w; reflexivity. Qed.

(** X19.  On a command line that [parseDiceConfig] rejects, [main] prints
    the error message and the usage example and ends: no question is
    asked, no entropy is drawn, and nothing else is printed. *)
Theorem main_reports_rejected_arguments
    {Face} `{NodeCrypto} `{JsConversions Face} `{JsRuntime Face}
    (fuel : nat) (args : list string) (message : string) (w : World) :
  parseDiceConfig args = Raise (Error message) ->
  main fuel args w
  = Done tt (mkWorld (entropy w) (answers w) (asked w)
               (transcript w ++ [ConsoleError ("Error: " ++ message);
                                 ConsoleLog usageLine])).
Proof.
  intros Hparse. unfold main, gbind at 1. rewrite Hparse.
  cbn [liftR gthrow errorMessage].
  unfold gbind, console_error, console_log, emit.
  cbn [entropy answers asked transcript].
  rewrite <- app_assoc. reflexivity.
Qed.

Lemma main_reports_rejected_arguments_witness :
  main (H := exampleCrypto) (H0 := exampleConversions) (H1 := exampleRuntime)
    3 ["2,2,4,4,9,9"; "6,8,1,1,8"; "7,5,3,7,5,3"]%string
    (exampleWorld gameTape [])
  = Done tt (mkWorld gameTape (typing []) 0
      [ConsoleError ("Error: Invalid dice format: " ++ dquote ++ "6,8,1,1,8"
                     ++ dquote ++
                     ". Each dice should contain exactly 6 integers.");
       ConsoleLog usageLine]).
Proof.
  apply (main_reports_rejected_arguments
           (H := exampleCrypto) (H0 := exampleConversions)
           (H1 := exampleRuntime) 3
           ["2,2,4,4,9,9"; "6,8,1,1,8"; "7,5,3,7,5,3"]%string _
           (exampleWorld gameTape [])).
  reflexivity.
Defined.

Lemma forEachFrom_menu {Face} `{JsRuntime Face}
    (ds : list (Dice Face)) (index : nat) (w : World) :
  forEachFrom
    (fun dice index =>
       console_log (js_toString (Num (Z.of_nat index)) ++ " - [" ++
                    join ", " (map faceToString (values dice)) ++ "]"))
    ds index w
  = Done tt (mkWorld (entropy w) (answers w) (asked w)
               (transcript w ++ menuFrom ds index)).
Proof.
  revert index w; induction ds as [|dice rest IH]; intros index w.
  - cbn [forEachFrom menuFrom]. unfold gret. rewrite app_nil_r, world_eta.
    reflexivity.
  - cbn [forEachFrom menuFrom]. unfold gbind at 1, console_log, emit.
    rewrite IH. cbn [entropy answers asked transcript].
    rewrite <- app_assoc. reflexivity.
Qed.

Lemma selectUserDice_eq {Face} `{JsRuntime Face}
    (this : GameFlow Face) (w : World) :
  selectUserDice this w
  = Done (js_index (diceSet this) (parseInt (answers w (asked w))))
         (selectionWorld this w).
Proof.
  unfold selectUserDice, gbind at 1, console_log at 1, emit.
  unfold gbind at 1. rewrite forEachFrom_menu.
  cbn [entropy answers asked transcript].
  unfold gbind, getUserInput, gret, selectionWorld.
  cbn [entropy answers asked transcript].
  rewrite <- !app_assoc. reflexivity.
Qed.

(** [playRounds], case by case. *)
Lemma playRounds_eq {Face} `{JsRuntime Face}
    (fuel : nat) (this : GameFlow Face) (w : World) :
  playRounds fuel this w =
  match js_index (diceSet this) (parseInt (answers w (asked w))) with
  | None => Failed (TypeError undefinedCallMessage) (selectionWorld this w)
  | Some userDice =>
      match roll fuel userDice (entropy w) with
      | Ret userRoll e1 =>
          match js_index (diceSet this) (Num 1) with
          | None =>
              Failed (TypeError undefinedCallMessage)
                     (withEntropy (selectionWorld this w) e1)
          | Some computerDice =>
              match roll fuel computerDice e1 with
              | Ret computerRoll e2 =>
                  Done tt
                    (mkWorld e2 (answers w) (S (asked w))
                       (transcript (selectionWorld this w)
                        ++ roundLines userRoll computerRoll))
              | Throw err e2 =>
                  Failed (Thrown err)
                         (withEntropy (selectionWorld this w) e2)
              | Spin => Hung
              end
          end
      | Throw err e1 =>
          Failed (Thrown err) (withEntropy (selectionWorld this w) e1)
      | Spin => Hung
      end
  end.
Proof.
  unfold playRounds, gbind at 1. rewrite selectUserDice_eq.
  destruct (js_index (diceSet this) (parseInt (answers w (asked w))))
    as [userDice|]; [|reflexivity].
  unfold gbind at 1. cbn [rollOf]. unfold liftM at 1.
  change (entropy (selectionWorld this w)) with (entropy w).
  destruct (roll fuel userDice (entropy w)) as [userRoll e1| |];
    [|reflexivity|reflexivity].
  unfold gbind at 1.
  destruct (js_index (diceSet this) (Num 1)) as [computerDice|];
    [|reflexivity].
  cbn [rollOf]. unfold liftM. cbn [entropy].
  destruct (roll fuel computerDice e1) as [computerRoll e2| |];
    [|reflexivity|reflexivity].
  unfold gbind, console_log, emit, roundLines.
  cbn [entropy answers asked transcript selectionWorld].
  destruct (roll_gt userRoll computerRoll);
    [|destruct (roll_lt userRoll computerRoll)];
    cbn [entropy answers asked transcript];
    rewrite <- !app_assoc; reflexivity.
Qed.

(** [startGame] up to the rounds. *)
Lemma startGame_eq {Face} `{NodeCrypto} `{JsRuntime Face}
    (fuel : nat) (this : GameFlow Face) (w : World) :
  startGame fuel this w =
  match FairNumberProtocol_new fuel 2 (entropy w) with
  | Ret p e1 =>
      playRounds fuel this
        (mkWorld e1 (answers w) (S (asked w))
           (transcript w ++ firstMoveLines p (answers w (asked w))))
  | Throw err e1 =>
      Failed (Thrown err)
        (mkWorld e1 (answers w) (asked w)
           (transcript w
            ++ [ConsoleLog "Let's determine who makes the first move."]))
  | Spin => Hung
  end.
Proof.
  unfold startGame, gbind at 1, console_log at 1, emit.
  unfold gbind at 1, liftM. cbn [entropy answers asked transcript].
  destruct (FairNumberProtocol_new fuel 2 (entropy w)) as [p e1| |];
    [|reflexivity|reflexivity].
  unfold getHMAC, getComputerNumber, revealKey. cbn [liftR].
  unfold gbind, gret, console_log, emit, getUserInput, firstMoveLines.
  cbn [entropy answers asked transcript].
  destruct (js_strict_eq (parseInt (answers w (asked w))) (computerNumber p));
    cbn [entropy answers asked transcript];
    rewrite <- !app_assoc; reflexivity.
Qed.

Lemma playRounds_appends {Face} `{JsRuntime Face}
    (fuel : nat) (this : GameFlow Face) (w w' : World) :
  finalWorld (playRounds fuel this w) = Some w' ->
  exists later, transcript w' = transcript w ++ later.
Proof.
  rewrite playRounds_eq.
  destruct (js_index (diceSet this) (parseInt (answers w (asked w))))
    as [userDice|].
  - destruct (roll fuel userDice (entropy w)) as [userRoll e1|err e1|];
      [|intros [= <-]; eexists; reflexivity|discriminate].
    destruct (js_index (diceSet this) (Num 1)) as [computerDice|];
      [|intros [= <-]; eexists; reflexivity].
    destruct (roll fuel computerDice e1) as [computerRoll e2|err e2|];
      [| |discriminate]; intros [= <-]; cbn [transcript selectionWorld withEntropy];
      [rewrite <- app_assoc|]; eexists; reflexivity.
  - intros [= <-]. eexists; reflexivity.
Qed.

Lemma protocol_of_two `{NodeCrypto}
    (fuel : nat) (e e1 : Entropy) (p : FairNumberProtocol) :
  FairNumberProtocol_new fuel 2 e = Ret p e1 ->
  secretKey p = toHex (nextBytes e 32) /\
  hmac p = toHex (hmacSha3_256 (secretKey p)
                    (js_toString (computerNumber p))) /\
  (computerNumber p = Num 0 \/ computerNumber p = Num 1).
Proof.
  rewrite FairNumberProtocol_new_unfold.
  destruct (generateSecureRandomNumber fuel 2 (advance e 32))
    as [number e2| |] eqn:Hnum; try discriminate.
  intros [= <- <-]. cbn [secretKey hmac computerNumber].
  split; [reflexivity|]. split; [reflexivity|].
  assert (H2 : 2 <= 2) by lia.
  destruct (generateSecureRandomNumber_in_range _ _ _ _ _ H2 Hnum)
    as (z & -> & Hz).
  assert (z = 0 \/ z = 1) as [-> | ->] by lia; auto.
Qed.

Lemma protocol_of_two_no_throw `{NodeCrypto}
    (fuel : nat) (e e1 : Entropy) (err : JsError) :
  FairNumberProtocol_new fuel 2 e <> Throw err e1.
Proof.
  rewrite FairNumberProtocol_new_unfold.
  destruct (generateSecureRandomNumber fuel 2 (advance e 32))
    as [number e2|err2 e2|] eqn:Hnum; try discriminate.
  exfalso. eapply (sampler_no_throw 2); [|exact Hnum].
  change (2 ^ 53) with 9007199254740992. lia.
Qed.

(** X20.  The first-move exchange of [startGame] is a commitment: however
    the game ends (normally or with an exception), the terminal shows, in
    this order, the HMAC, then the question for the user's guess, then the
    computer's number with the key.  Number, key and HMAC are those of the
    protocol instance built from the entropy source alone, before the
    guess is read; the number is 0 or 1, and the HMAC shown first is the
    digest of the key and the number shown last, so the user can check
    it.  The verdict is "You go first" exactly when the parsed guess is
    strictly equal to the number. *)
Theorem startGame_commits_before_it_asks
    {Face} `{NodeCrypto} `{JsRuntime Face}
    (fuel : nat) (this : GameFlow Face) (w w' : World) :
  finalWorld (startGame fuel this w) = Some w' ->
  exists p e1 later,
    FairNumberProtocol_new fuel 2 (entropy w) = Ret p e1 /\
    transcript w'
    = transcript w ++ firstMoveLines p (answers w (asked w)) ++ later /\
    secretKey p = toHex (nextBytes (entropy w) 32) /\
    hmac p = toHex (hmacSha3_256 (secretKey p)
                      (js_toString (computerNumber p))) /\
    (computerNumber p = Num 0 \/ computerNumber p = Num 1).
Proof.
  rewrite startGame_eq.
  destruct (FairNumberProtocol_new fuel 2 (entropy w)) as [p e1|err e1|]
    eqn:Hnew.
  - intros Hend. apply playRounds_appends in Hend as (later & Hlater).
    cbn [transcript] in Hlater.
    destruct (protocol_of_two _ _ _ _ Hnew) as (Hkey & Hmac & Hnum).
    exists p, e1, later. rewrite Hlater, <- app_assoc. auto.
  - exfalso. exact (protocol_of_two_no_throw _ _ _ _ Hnew).
  - discriminate.
Qed.

Lemma startGame_commits_before_it_asks_witness :
  let w := exampleWorld gameTape ["1"; "2"]%string in
  exists w',
    finalWorld (startGame (H := exampleCrypto) (H0 := exampleRuntime)
                  3 gameOfArgs w) = Some w' /\
    exists p e1 later,
      FairNumberProtocol_new (H := exampleCrypto) 3 2 (entropy w)
      = Ret p e1 /\
      transcript w'
      = transcript w
        ++ firstMoveLines (H := exampleRuntime) p (answers w (asked w))
        ++ later /\
      secretKey p = toHex (nextBytes (entropy w) 32) /\
      hmac p = toHex (@hmacSha3_256 exampleCrypto (secretKey p)
                        (js_toString (computerNumber p))) /\
      (computerNumber p = Num 0 \/ computerNumber p = Num 1).
Proof.
  intros w.
  destruct (finalWorld (startGame (H := exampleCrypto) (H0 := exampleRuntime)
                          3 gameOfArgs w)) as [w'|] eqn:Hend.
  - exists w'. split; [reflexivity|].
    exact (startGame_commits_before_it_asks
             (H := exampleCrypto) (H0 := exampleRuntime)
             3 gameOfArgs w w' Hend).
  - vm_compute in Hend. discriminate.
Defined.

Lemma js_index_nat {A} (arr : list A) (i : nat) :
  js_index arr (Num (Z.of_nat i)) = arr !! i.
Proof.
  cbn [js_index]. destruct (Z.of_nat i <? 0) eqn:Hneg;
    [apply Z.ltb_lt in Hneg; lia|].
  rewrite Nat2Z.id. reflexivity.
Qed.

Lemma js_index_Some {A} (arr : list A) (v : jsnum) (x : A) :
  js_index arr v = Some x ->
  exists i, v = Num (Z.of_nat i) /\ arr !! i = Some x.
Proof.
  destruct v as [z| | |]; try discriminate. cbn [js_index].
  destruct (z <? 0) eqn:Hneg; [discriminate|]. apply Z.ltb_ge in Hneg.
  intros Hx. exists (Z.to_nat z). rewrite Z2Nat.id by lia. auto.
Qed.

Lemma roll_of_rollable {A} (fuel : nat) (d : Dice A) (e : Entropy) :
  rollableDie d ->
  (exists face e', roll fuel d e = Ret (Some face) e' /\ In face (values d))
  \/ roll fuel d e = Spin.
Proof.
  intros Hd. destruct (roll fuel d e) as [r e'|err e'|] eqn:Hroll.
  - left.
    assert (Hlen : (2 <= length (values d))%nat) by (unfold rollableDie in Hd; lia).
    destruct (roll_in_faces _ _ _ _ _ Hlen Hroll) as (i & face & -> & _ & Hin).
    exists face, e'. auto.
  - exfalso. rewrite roll_unfold in Hroll.
    destruct (generateSecureRandomNumber fuel
                (Z.of_nat (length (values d))) e)
      as [idx e1|err1 e1|] eqn:Hs; try discriminate.
    exact (sampler_no_throw _ _ _ _ _ Hd Hs).
  - right. reflexivity.
Qed.

(** X21.  A round with a valid selection.  When every die of the set can
    be rolled, the user's answer parses to the position of a die and the
    set has a second die, [playRounds] raises nothing.  When it returns,
    the user's die was rolled first and the second die of the set (the
    computer's, whatever the user chose) after it, on the entropy the
    first roll left; each throw printed is a face of its die; and after
    the menu and the question the terminal shows the two throws and the
    verdict of comparing them. *)
Theorem playRounds_with_valid_selection {Face} `{JsRuntime Face}
    (fuel : nat) (this : GameFlow Face) (w : World)
    (i : nat) (userDice computerDice : Dice Face) :
  Forall rollableDie (diceSet this) ->
  selects this (answers w (asked w)) i userDice ->
  diceSet this !! 1%nat = Some computerDice ->
  (forall err w', playRounds fuel this w <> Failed err w') /\
  (forall w',
     playRounds fuel this w = Done tt w' ->
     exists f1 f2 e1,
       roll fuel userDice (entropy w) = Ret (Some f1) e1 /\
       roll fuel computerDice e1 = Ret (Some f2) (entropy w') /\
       In f1 (values userDice) /\ In f2 (values computerDice) /\
       asked w' = S (asked w) /\
       transcript w'
       = transcript (selectionWorld this w)
         ++ roundLines (Some f1) (Some f2)).
Proof.
  intros Hall (Hparse & Huser) Hcomp.
  assert (Hud : rollableDie userDice).
  { rewrite Forall_forall in Hall. apply Hall.
    eapply list_elem_of_lookup_2, Huser. }
  assert (Hcd : rollableDie computerDice).
  { rewrite Forall_forall in Hall. apply Hall.
    eapply list_elem_of_lookup_2, Hcomp. }
  rewrite playRounds_eq, Hparse, js_index_nat, Huser.
  change (Num 1) with (Num (Z.of_nat 1)). rewrite js_index_nat, Hcomp.
  destruct (roll_of_rollable fuel userDice (entropy w) Hud)
    as [(f1 & e1 & -> & Hin1)| ->]; [|split; intros; discriminate].
  destruct (roll_of_rollable fuel computerDice e1 Hcd)
    as [(f2 & e2 & Hroll2 & Hin2)| ->]; [|split; intros; discriminate].
  rewrite Hroll2. split; [intros; discriminate|].
  intros w' [= <-]. exists f1, f2, e1.
  cbn [entropy asked transcript]. auto 10.
Qed.

Lemma gameOfArgs_rollable : Forall rollableDie (diceSet gameOfArgs).
Proof.
  repeat constructor; cbn; change (2 ^ 53) with 9007199254740992; lia.
Qed.

Lemma playRounds_with_valid_selection_witness :
  let w := exampleWorld (tapeOf [x09; x03; x05]) ["2"]%string in
  exists w' f1 f2,
    playRounds (H := exampleRuntime) 3 gameOfArgs w = Done tt w' /\
    In f1 [Num 7; Num 5; Num 3; Num 7; Num 5; Num 3] /\
    In f2 [Num 6; Num 8; Num 1; Num 1; Num 8; Num 6] /\
    asked w' = S (asked w).
Proof.
  intros w.
  destruct (playRounds_with_valid_selection (H := exampleRuntime)
              3 gameOfArgs w 2
              (mkDice [Num 7; Num 5; Num 3; Num 7; Num 5; Num 3])
              (mkDice [Num 6; Num 8; Num 1; Num 1; Num 8; Num 6])
              gameOfArgs_rollable (conj eq_refl eq_refl) eq_refl)
    as (_ & Hdone).
  destruct (playRounds (H := exampleRuntime) 3 gameOfArgs w)
    as [[] w'|err w'|] eqn:Hrun.
  - destruct (Hdone w' eq_refl)
      as (f1 & f2 & e1 & _ & _ & Hin1 & Hin2 & Hasked & _).
    exists w', f1, f2. auto.
  - vm_compute in Hrun. discriminate.
  - vm_compute in Hrun. discriminate.
Defined.

(** X22.  A round with an invalid selection.  When the user's answer does
    not parse to the position of a die (it is not a number, negative, or
    not below the number of dice), [playRounds] ends in the runtime's
    type error for calling [roll] on [undefined], right after the menu
    and the question: no die is rolled and no entropy is drawn. *)
Theorem playRounds_with_invalid_selection {Face} `{JsRuntime Face}
    (fuel : nat) (this : GameFlow Face) (w : World) :
  ~ (exists i die, selects this (answers w (asked w)) i die) ->
  playRounds fuel this w
  = Failed (TypeError undefinedCallMessage) (selectionWorld this w) /\
  entropy (selectionWorld this w) = entropy w.
Proof.
  intros Hnone. split; [|reflexivity].
  rewrite playRounds_eq.
  destruct (js_index (diceSet this) (parseInt (answers w (asked w))))
    as [die|] eqn:Hidx; [|reflexivity].
  exfalso. apply Hnone.
  destruct (js_index_Some _ _ _ Hidx) as (i & Hparse & Hdie).
  exists i, die. split; assumption.
Qed.

Lemma playRounds_with_invalid_selection_witness :
  playRounds (H := exampleRuntime) 3 gameOfArgs
    (exampleWorld gameTape ["3"]%string)
  = Failed (TypeError "Cannot read properties of undefined")
      (selectionWorld (H := exampleRuntime) gameOfArgs
         (exampleWorld gameTape ["3"]%string)) /\
  entropy (selectionWorld (H := exampleRuntime) gameOfArgs
             (exampleWorld gameTape ["3"]%string))
  = gameTape.
Proof.
  apply (playRounds_with_invalid_selection (H := exampleRuntime)
           3 gameOfArgs (exampleWorld gameTape ["3"]%string)).
  intros (i & die & Hparse & Hdie).
  injection Hparse as Hi. assert (i = 3%nat) as -> by lia.
  discriminate.
Defined.

Lemma GameFlow_new_eq {A} (dice : list (list A)) :
  GameFlow_new dice = Ok (mkGameFlow (map mkDice dice)).
Proof.
  unfold GameFlow_new.
  assert (Hm : mapR Dice_new dice = Ok (map mkDice dice)).
  { induction dice as [|d rest IH]; [reflexivity|].
    cbn [mapR map]. unfold Dice_new at 1. cbn [rbind].
    rewrite IH. reflexivity. }
  rewrite Hm. reflexivity.
Qed.

Lemma parsed_game_shape {Face} `{JsConversions Face}
    (args : list string) (game : GameFlow Face) :
  main_setup args = Ok game ->
  parseDiceConfig args
  = Ok (map (fun arg => map Number (split_comma arg)) args) /\
  Forall rollableDie (diceSet game) /\
  exists computerDice, diceSet game !! 1%nat = Some computerDice.
Proof.
  unfold main_setup, parseDiceConfig.
  destruct (length args <? 3)%nat eqn:Hlen; [discriminate|].
  apply Nat.ltb_ge in Hlen.
  destruct (mapR_parseDie args)
    as [(Hall & ->)|(good & bad & rest & _ & _ & _ & ->)]; [|discriminate].
  cbn [rbind]. rewrite GameFlow_new_eq. intros [= <-].
  split; [reflexivity|]. cbn [diceSet]. split.
  - rewrite map_map. apply Forall_map.
    eapply Forall_impl; [exact Hall|].
    intros arg Hwf. unfold wellFormedDie in Hwf.
    apply andb_prop in Hwf as (H6 & _). apply Nat.eqb_eq in H6.
    unfold rollableDie. cbn [values]. rewrite length_map, H6.
    change (2 ^ 53) with 9007199254740992. lia.
  - apply lookup_lt_is_Some_2. rewrite !length_map. lia.
Qed.

(** X23.  The game that [main] builds from accepted arguments can fail in
    one way only.  If [startGame] ends with an exception, it is the
    runtime's type error of [playRounds], and the user's second answer did
    not parse to the position of a die; neither the sampler nor a roll
    ever throws there.  [main] then prints that error and the usage
    example after what the game had printed. *)
Theorem parsed_game_fails_only_on_invalid_selection
    {Face} `{NodeCrypto} `{JsConversions Face} `{JsRuntime Face}
    (fuel : nat) (args : list string) (game : GameFlow Face)
    (w w' : World) (err : GameError) :
  main_setup args = Ok game ->
  startGame fuel game w = Failed err w' ->
  err = TypeError undefinedCallMessage /\
  ~ (exists i die, selects game (answers w (S (asked w))) i die) /\
  main fuel args w
  = Done tt (mkWorld (entropy w') (answers w') (asked w')
               (transcript w'
                ++ [ConsoleError ("Error: " ++ undefinedCallMessage);
                    ConsoleLog usageLine])).
Proof.
  intros Hsetup Hrun.
  destruct (parsed_game_shape args game Hsetup)
    as (Hparse & Hall & computerDice & Hcomp).
  assert (Hgame : GameFlow_new
                    (map (fun arg => map Number (split_comma arg)) args)
                  = Ok game).
  { unfold main_setup in Hsetup. rewrite Hparse in Hsetup. exact Hsetup. }
  assert (Hmain : forall error w1,
            startGame fuel game w = Failed error w1 ->
            main fuel args w
            = Done tt (mkWorld (entropy w1) (answers w1) (asked w1)
                         (transcript w1
                          ++ [ConsoleError ("Error: " ++ errorMessage error);
                              ConsoleLog usageLine]))).
  { intros error w1 Hfail. unfold main, gbind at 1. rewrite Hparse.
    cbn [liftR]. unfold gret at 1, gbind at 1. rewrite Hgame.
    cbn [liftR]. unfold gret at 1. rewrite Hfail.
    unfold gbind, console_error, console_log, emit.
    cbn [entropy answers asked transcript].
    rewrite <- app_assoc. reflexivity. }
  assert (Hkind : err = TypeError undefinedCallMessage /\
                  ~ (exists i die,
                       selects game (answers w (S (asked w))) i die)).
  { pose proof Hrun as Hcase. rewrite startGame_eq in Hcase.
    destruct (FairNumberProtocol_new fuel 2 (entropy w)) as [p e1|err1 e1|]
      eqn:Hnew;
      [|exfalso; exact (protocol_of_two_no_throw _ _ _ _ Hnew)|discriminate].
    rewrite playRounds_eq in Hcase. cbn [entropy answers asked] in Hcase.
    destruct (js_index (diceSet game) (parseInt (answers w (S (asked w)))))
      as [userDice|] eqn:Hidx.
    - exfalso.
      destruct (js_index_Some _ _ _ Hidx) as (i & _ & Hud).
      assert (Hrollable : rollableDie userDice).
      { rewrite Forall_forall in Hall. apply Hall.
        eapply list_elem_of_lookup_2, Hud. }
      assert (Hcd : rollableDie computerDice).
      { rewrite Forall_forall in Hall. apply Hall.
        eapply list_elem_of_lookup_2, Hcomp. }
      destruct (roll_of_rollable fuel userDice e1 Hrollable)
        as [(f1 & e2 & Hr1 & _)|Hr1]; rewrite Hr1 in Hcase;
        [|discriminate].
      change (Num 1) with (Num (Z.of_nat 1)) in Hcase.
      rewrite js_index_nat, Hcomp in Hcase.
      destruct (roll_of_rollable fuel computerDice e2 Hcd)
        as [(f2 & e3 & Hr2 & _)|Hr2]; rewrite Hr2 in Hcase; discriminate.
    - injection Hcase as <- _. split; [reflexivity|].
      intros (i & die & Hparse' & Hdie).
      rewrite Hparse', js_index_nat, Hdie in Hidx. discriminate. }
  destruct Hkind as (-> & Hinvalid).
  split; [reflexivity|]. split; [exact Hinvalid|].
  apply (Hmain _ _ Hrun).
Qed.

Lemma parsed_game_fails_only_on_invalid_selection_witness :
  let w := exampleWorld gameTape ["0"; "7"]%string in
  exists err w',
    startGame (H := exampleCrypto) (H0 := exampleRuntime) 3 gameOfArgs w
    = Failed err w' /\
    err = TypeError (@undefinedCallMessage _ exampleRuntime) /\
    ~ (exists i die,
         selects (H := exampleRuntime) gameOfArgs
           (answers w (S (asked w))) i die).
Proof.
  intros w.
  destruct (startGame (H := exampleCrypto) (H0 := exampleRuntime)
              3 gameOfArgs w) as [[] w'|err w'|] eqn:Hrun.
  - vm_compute in Hrun. discriminate.
  - exists err, w'. split; [reflexivity|].
    destruct (parsed_game_fails_only_on_invalid_selection
                (H := exampleCrypto) (H0 := exampleConversions)
                (H1 := exampleRuntime) 3 gameArgs gameOfArgs w w' err
                eq_refl Hrun) as (Herr & Hinvalid & _).
    split; [exact Herr | exact Hinvalid].
  - vm_compute in Hrun. discriminate.
Defined.

(** X24.  A whole game that ends normally.  For accepted arguments, when
    [startGame] returns, the user was asked exactly two questions, the
    second answer named a die of the set, and the terminal shows, after
    what was there, the first-move exchange, the menu with one line per
    die, the question for the selection, and the two throws with the
    verdict; the user's throw is a face of the selected die and the
    computer's a face of the second die.  [main] returns with exactly
    that: it prints no error and no usage line. *)
Theorem parsed_game_that_returns
    {Face} `{NodeCrypto} `{JsConversions Face} `{JsRuntime Face}
    (fuel : nat) (args : list string) (game : GameFlow Face)
    (w w' : World) :
  main_setup args = Ok game ->
  startGame fuel game w = Done tt w' ->
  exists p i userDice computerDice f1 f2,
    selects game (answers w (S (asked w))) i userDice /\
    diceSet game !! 1%nat = Some computerDice /\
    In f1 (values userDice) /\ In f2 (values computerDice) /\
    asked w' = S (S (asked w)) /\
    transcript w'
    = transcript w
      ++ firstMoveLines p (answers w (asked w))
      ++ ConsoleLog "Choose your dice:" :: menuFrom (diceSet game) 0
      ++ Question "Your selection: " :: roundLines (Some f1) (Some f2) /\
    length (menuFrom (diceSet game) 0) = length args /\
    main fuel args w = Done tt w'.
Proof.
  intros Hsetup Hrun.
  destruct (parsed_game_shape args game Hsetup)
    as (Hparse & Hall & computerDice & Hcomp).
  assert (Hmain : main fuel args w = Done tt w').
  { unfold main, gbind at 1. rewrite Hparse. cbn [liftR].
    unfold gret at 1, gbind at 1.
    unfold main_setup in Hsetup. rewrite Hparse in Hsetup.
    cbn [rbind] in Hsetup. rewrite Hsetup. cbn [liftR]. unfold gret at 1.
    rewrite Hrun. reflexivity. }
  assert (Hmenu : forall (ds : list (Dice Face)) index,
            length (menuFrom ds index) = length ds)
    by (induction ds as [|d ds IH]; intros index;
        [reflexivity | cbn [menuFrom length]; rewrite IH; reflexivity]).
  assert (Hdice : length (diceSet game) = length args).
  { unfold main_setup in Hsetup. rewrite Hparse in Hsetup.
    cbn [rbind] in Hsetup. rewrite GameFlow_new_eq in Hsetup.
    injection Hsetup as <-. cbn [diceSet]. rewrite !length_map.
    reflexivity. }
  rewrite startGame_eq in Hrun.
  destruct (FairNumberProtocol_new fuel 2 (entropy w)) as [p e1|err1 e1|];
    try discriminate.
  rewrite playRounds_eq in Hrun. cbn [entropy answers asked] in Hrun.
  destruct (js_index (diceSet game) (parseInt (answers w (S (asked w)))))
    as [userDice|] eqn:Hidx; [|discriminate].
  destruct (js_index_Some _ _ _ Hidx) as (i & Hchoice & Hud).
  assert (Hrollable : rollableDie userDice).
  { rewrite Forall_forall in Hall. apply Hall.
    eapply list_elem_of_lookup_2, Hud. }
  assert (Hcd : rollableDie computerDice).
  { rewrite Forall_forall in Hall. apply Hall.
    eapply list_elem_of_lookup_2, Hcomp. }
  destruct (roll_of_rollable fuel userDice e1 Hrollable)
    as [(f1 & e2 & Hr1 & Hin1)|Hr1]; rewrite Hr1 in Hrun; [|discriminate].
  change (Num 1) with (Num (Z.of_nat 1)) in Hrun.
  rewrite js_index_nat, Hcomp in Hrun.
  destruct (roll_of_rollable fuel computerDice e2 Hcd)
    as [(f2 & e3 & Hr2 & Hin2)|Hr2]; rewrite Hr2 in Hrun; [|discriminate].
  injection Hrun as <-.
  exists p, i, userDice, computerDice, f1, f2.
  cbn [asked transcript selectionWorld].
  split; [split; assumption|]. split; [exact Hcomp|].
  split; [exact Hin1|]. split; [exact Hin2|]. split; [reflexivity|].
  split; [|split; [rewrite Hmenu; exact Hdice | exact Hmain]].
  rewrite <- !app_assoc. cbn [app]. rewrite <- !app_assoc. reflexivity.
Qed.

Lemma parsed_game_that_returns_witness :
  let w := exampleWorld gameTape ["1"; "2"]%string in
  exists w',
    startGame (H := exampleCrypto) (H0 := exampleRuntime) 3 gameOfArgs w
    = Done tt w' /\
    asked w' = 2%nat /\
    main (H := exampleCrypto) (H0 := exampleConversions)
         (H1 := exampleRuntime) 3 gameArgs w = Done tt w'.
Proof.
  intros w.
  destruct (startGame (H := exampleCrypto) (H0 := exampleRuntime)
              3 gameOfArgs w) as [[] w'|err w'|] eqn:Hrun.
  - exists w'. split; [reflexivity|].
    destruct (parsed_game_that_returns
                (H := exampleCrypto) (H0 := exampleConversions)
                (H1 := exampleRuntime) 3 gameArgs gameOfArgs w w'
                eq_refl Hrun)
      as (p & i & ud & cd & f1 & f2 & _ & _ & _ & _ & Hasked & _ & _ & Hmain).
    split; [exact Hasked | exact Hmain].
  - vm_compute in Hrun. discriminate.
  - vm_compute in Hrun. discriminate.
Defined.

(** ** The result of the protocol as a function of the user's value *)

Lemma mod_below_twice (x n : Z) :
  0 < n -> 0 <= x < 2 * n ->
  x mod n = if x <? n then x else x - n.
Proof.
  intros Hn Hx. destruct (x <? n) eqn:Hlt.
  - apply Z.ltb_lt in Hlt. apply Z.mod_small. lia.
  - apply Z.ltb_ge in Hlt. symmetry.
    apply Z.mod_unique with 1; lia.
Qed.

(** X25.  With the committed number fixed, the user's value decides the
    result one-to-one: on an instance with a range [n] from 2 up to [2^52]
    (so that every sum is an exact double) and a committed number in
    [[0, n)], every result of [[0, n)] is produced by exactly one user
    value of [[0, n)].  No committed number, however chosen, makes some
    result more likely than another. *)
Theorem calculateResult_is_one_to_one_in_the_user_value
    (p : FairNumberProtocol) (cv r : Z) :
  2 <= range p <= 2 ^ 52 ->
  computerNumber p = Num cv ->
  0 <= cv < range p ->
  0 <= r < range p ->
  exists u,
    0 <= u < range p /\
    calculateResult (Num u) p = Ok (Num r, p) /\
    forall u',
      0 <= u' < range p ->
      calculateResult (Num u') p = Ok (Num r, p) -> u' = u.
Proof.
  intros [Hn Hmax] Hcv Hcvr Hr. unfold calculateResult. rewrite Hcv.
  set (n := range p) in *.
  assert (Hne : (n =? 0) = false) by (apply Z.eqb_neq; lia).
  assert (Hval : forall u, 0 <= u < n ->
            js_rem (js_add (Num cv) (Num u)) (Num n)
            = Num (if cv + u <? n then cv + u else cv + u - n)).
  { intros u Hu. cbn [js_add js_rem]. rewrite Hne.
    rewrite Z.rem_mod_nonneg by lia.
    rewrite mod_below_twice by lia. reflexivity. }
  exists (if cv <=? r then r - cv else r - cv + n).
  assert (Hu : 0 <= (if cv <=? r then r - cv else r - cv + n) < n)
    by (destruct (cv <=? r) eqn:Hle;
        [apply Z.leb_le in Hle | apply Z.leb_gt in Hle]; lia).
  split; [exact Hu|]. split.
  - rewrite Hval by exact Hu.
    set (u := if cv <=? r then r - cv else r - cv + n) in *.
    assert (Heq : (if cv + u <? n then cv + u else cv + u - n) = r).
    { unfold u. destruct (cv <=? r) eqn:Hle;
        [apply Z.leb_le in Hle | apply Z.leb_gt in Hle].
      - destruct (cv + (r - cv) <? n) eqn:Hlt;
          [|apply Z.ltb_ge in Hlt]; lia.
      - destruct (cv + (r - cv + n) <? n) eqn:Hlt;
          [apply Z.ltb_lt in Hlt|]; lia. }
    rewrite Heq. reflexivity.
  - intros u' Hu' Hres. rewrite Hval in Hres by exact Hu'.
    injection Hres as Hres.
    destruct (cv + u' <? n) eqn:Hlt;
      [apply Z.ltb_lt in Hlt | apply Z.ltb_ge in Hlt];
      destruct (cv <=? r) eqn:Hle;
      [apply Z.leb_le in Hle | apply Z.leb_gt in Hle
      | apply Z.leb_le in Hle | apply Z.leb_gt in Hle]; lia.
Qed.

Lemma calculateResult_is_one_to_one_in_the_user_value_witness :
  exists u,
    0 <= u < 6 /\
    calculateResult (Num u) (mkProtocol 6 "00" (Num 4) "ab")
    = Ok (Num 1, mkProtocol 6 "00" (Num 4) "ab") /\
    forall u',
      0 <= u' < 6 ->
      calculateResult (Num u') (mkProtocol 6 "00" (Num 4) "ab")
      = Ok (Num 1, mkProtocol 6 "00" (Num 4) "ab") -> u' = u.
Proof.
  apply (calculateResult_is_one_to_one_in_the_user_value
           (mkProtocol 6 "00" (Num 4) "ab") 4 1);
    cbn [range computerNumber]; try reflexivity;
    change (2 ^ 52) with 4503599627370496; lia.
Defined.
